(** * The policy-analysis core of the SolarFlare backend

    A shallow embedding of the analysis pipeline of the Cloudflare worker
    (chunker, per-chunk inference with fallback, aggregation, risk scorer),
    of the [PolicyCache] durable object, of the sliding-window rate limiter
    and of the [/api/analyze] handler, with the properties the design
    document states about them.

    Conventions.
    - JavaScript values that come out of [JSON.parse] are terms of [JValue];
      numbers are integers ([Z]), strings are sequences of 8-bit code units;
      the one sum whose rounding matters is also given on doubles.
    - A call that may throw returns an [outcome]; state that survives a call
      is threaded explicitly and returned next to the outcome.
    - [Date.now()], [Math.random()], the inference service and the durable
      object storage are inputs of the functions that consult them. *)

From stdpp Require Import gmap strings list fin_maps pretty.
From Stdlib Require Import ZArith Lia Ascii.
From Stdlib Require Floats.PrimFloat.

#[local] Set Warnings "-register-all".
Local Open Scope string_scope.
Local Open Scope Z_scope.

(** ** JavaScript values and exceptions *)

Module JS.

(** [Wrapped prefix cause] is [new Error(prefix + cause.message)]; the text
    of the messages of engine-raised errors is not modelled. *)
Inductive JSError :=
  | TypeError
  | SyntaxError
  | Error (message : string)
  | Wrapped (prefix : string) (cause : JSError).

Inductive outcome (A : Type) :=
  | Returns (a : A)
  | Throws (e : JSError).
Arguments Returns {A} a.
Arguments Throws {A} e.

#[global] Instance outcome_ret : MRet outcome := @Returns.
#[global] Instance outcome_bind : MBind outcome := λ A B f m,
  match m with
  | Returns a => f a
  | Throws e => Throws e
  end.

(** [try { body } catch (error) { handler }] *)
Definition try_catch {A} (body : outcome A) (handler : JSError → A) : A :=
  match body with
  | Returns a => a
  | Throws e => handler e
  end.

(** Code that mutates an object of type [S] and may throw: the mutations made
    before the throw stay. *)
Definition stateful (S A : Type) : Type := S → S * outcome A.

#[global] Instance stateful_ret {S} : MRet (stateful S) :=
  λ A a s, (s, Returns a).
#[global] Instance stateful_bind {S} : MBind (stateful S) := λ A B f m s,
  match m s with
  | (s', Returns a) => f a s'
  | (s', Throws e) => (s', Throws e)
  end.

Definition lift {S A} (o : outcome A) : stateful S A := λ s, (s, o).
Definition modify {S} (f : S → S) : stateful S unit := λ s, (f s, Returns tt).
Definition read {S A} (f : S → A) : stateful S A := λ s, (s, Returns (f s)).

(** [try { body } catch (error) { handler }] around mutating code. *)
Definition try_catch_st {S A} (body : stateful S A)
    (handler : JSError → stateful S A) : stateful S A := λ s,
  match body s with
  | (s', Returns a) => (s', Returns a)
  | (s', Throws e) => handler e s'
  end.

Inductive JValue :=
  | JUndefined
  | JNull
  | JBool (b : bool)
  | JNum (z : Z)
  | JStr (s : string)
  | JArr (items : list JValue)
  | JObj (props : list (string * JValue)).

(** ToBoolean *)
Definition truthy (v : JValue) : bool :=
  match v with
  | JUndefined | JNull => false
  | JBool b => b
  | JNum z => negb (z =? 0)
  | JStr s => negb (String.eqb s "")
  | JArr _ | JObj _ => true
  end.

(** Own properties of an object, in insertion order; keys are unique
    ([JSON.parse] keeps the last of two equal keys). *)
Fixpoint obj_get (props : list (string * JValue)) (k : string) : JValue :=
  match props with
  | [] => JUndefined
  | (k', v) :: rest => if String.eqb k' k then v else obj_get rest k
  end.

Fixpoint obj_set (props : list (string * JValue)) (k : string) (v : JValue)
  : list (string * JValue) :=
  match props with
  | [] => [(k, v)]
  | (k', v') :: rest =>
      if String.eqb k' k then (k, v) :: rest else (k', v') :: obj_set rest k v
  end.

(** [v.k] for a data field [k]: a [TypeError] on [null] and [undefined];
    arrays and strings carry [length]; no other inherited property is read
    by the modelled code. *)
Definition get_field (v : JValue) (k : string) : outcome JValue :=
  match v with
  | JUndefined | JNull => Throws TypeError
  | JObj props => Returns (obj_get props k)
  | JArr items =>
      Returns (if String.eqb k "length" then JNum (Z.of_nat (length items))
               else JUndefined)
  | JStr s =>
      Returns (if String.eqb k "length" then JNum (Z.of_nat (String.length s))
               else JUndefined)
  | JBool _ | JNum _ => Returns JUndefined
  end.

(** [v === 'text'] *)
Definition is_string (v : JValue) (text : string) : bool :=
  match v with
  | JStr s => String.eqb s text
  | _ => false
  end.

Fixpoint chars_of (s : string) : list JValue :=
  match s with
  | EmptyString => []
  | String c rest => JStr (String c EmptyString) :: chars_of rest
  end.

(** The elements produced by spreading [...v]: only arrays and strings are
    iterable among the values [JSON.parse] returns. *)
Definition spread (v : JValue) : outcome (list JValue) :=
  match v with
  | JArr items => Returns items
  | JStr s => Returns (chars_of s)
  | _ => Throws TypeError
  end.

(** Own enumerable properties, as [Object.assign] copies them. *)
Definition own_props (v : JValue) : list (string * JValue) :=
  match v with
  | JObj props => props
  | JArr items => imap (λ i x, (pretty i, x)) items
  | JStr s => imap (λ i x, (pretty i, x)) (chars_of s)
  | _ => []
  end.

(** [Object.assign(target, source)].  Every object has the prototype
    [Object.prototype]: a source property named [__proto__], which would
    change the prototype of the target, is outside the model. *)
Definition object_assign (target : list (string * JValue)) (source : JValue)
  : list (string * JValue) :=
  foldl (λ acc kv, obj_set acc kv.1 kv.2) target (own_props source).

Definition has_key (props : list (string * JValue)) (k : string) : bool :=
  existsb (λ kv, String.eqb kv.1 k) props.

(** Whether converting [v] to a primitive throws.  A parsed object converts
    through [Object.prototype.toString] unless it has a [toString] property
    of its own, which is never callable; an array converts by joining the
    conversions of its elements. *)
Fixpoint to_primitive_throws (v : JValue) : bool :=
  match v with
  | JObj props => has_key props "toString"
  | JArr items => existsb to_primitive_throws items
  | _ => false
  end.

(** The conversions to string made by a template literal or by [join]
    over [parts]. *)
Definition interpolate (parts : list JValue) : outcome unit :=
  if existsb to_primitive_throws parts then Throws TypeError else Returns ().

(** [xs.slice(0, n)] on an array or a string; anything else has no
    callable [slice]. *)
Definition slice_to (n : nat) (v : JValue) : outcome JValue :=
  match v with
  | JArr items => Returns (JArr (take n items))
  | JStr s => Returns (JStr (String.substring 0 n s))
  | _ => Throws TypeError
  end.

End JS.
Export JS.

(** ** Risk scorer: [PolicyAnalyzer.calculateRiskScores] *)

Module Scorer.

Inductive Risk := green | yellow | red.

#[global] Instance Risk_eq_dec : EqDecision Risk.
Proof. solve_decision. Defined.

(** The label the source writes for each level. *)
Definition risk_label (r : Risk) : string :=
  match r with
  | green => "green"
  | yellow => "yellow"
  | red => "red"
  end.

(** The severity order green < yellow < red. *)
Definition severity (r : Risk) : nat :=
  match r with
  | green => 0
  | yellow => 1
  | red => 2
  end.

Definition risk_le (a b : Risk) : Prop := (severity a ≤ severity b)%nat.

Definition risk_max (a b : Risk) : Risk :=
  if decide (severity a ≤ severity b)%nat then b else a.

(** The object built by [performAIAnalysis]. *)
Record Analysis := {
  executiveSummary : JValue;
  keyPoints : list JValue;
  redFlags : list JValue;
  recommendations : JValue;
  compliance : list (string * JValue);
  sections : list JValue
}.

Record RiskAssessment := {
  overall : Risk;
  regulatory : Risk;
  transparency : Risk;
  userRights : Risk
}.

(** [risks.includes(r)] *)
Definition includes (risks : list Risk) (r : Risk) : bool :=
  bool_decide (r ∈ risks).

(** [risks.includes('red') ? 'red' : risks.includes('yellow') ? 'yellow' : 'green'] *)
Definition overallRisk (risks : list Risk) : Risk :=
  if includes risks red then red
  else if includes risks yellow then yellow
  else green.

(** [sections.some(pred)], where [pred] may throw; stops at the first hit. *)
Fixpoint some_of (pred : JValue → outcome bool) (xs : list JValue)
  : outcome bool :=
  match xs with
  | [] => Returns false
  | x :: rest =>
      hit ← pred x;
      if (hit : bool) then Returns true else some_of pred rest
  end.

Section WithHost.

(** ECMAScript's [ToNumber(v) > 0] for a string or an array [v], which goes
    through the host's string-to-number conversion.  It is only reached when
    a finding's [userRights] is an object with a [length] property of its
    own holding a string or an array. *)
Variable to_number_gt0 : JValue → bool.

(** [v > 0]: the operand is first converted to a primitive. *)
Definition gt0 (v : JValue) : outcome bool :=
  if to_primitive_throws v then Throws TypeError
  else Returns match v with
               | JNum z => 0 <? z
               | JBool b => b
               | JUndefined | JNull | JObj _ => false
               | JStr _ | JArr _ => to_number_gt0 v
               end.

(** [section.userRights && section.userRights.length > 0] *)
Definition section_has_rights (section : JValue) : outcome bool :=
  rights ← get_field section "userRights";
  if truthy rights then
    len ← get_field rights "length";
    gt0 len
  else Returns false.

Definition calculateRiskScores (analysis : Analysis) : outcome RiskAssessment :=
  let regulatoryRisk := green in
  let transparencyRisk := green in
  let userRightsRisk := green in
  (* Check for red flags: an array is truthy *)
  let '(regulatoryRisk, transparencyRisk) :=
    if bool_decide (0 < length (redFlags analysis))%nat
    then (red, yellow)
    else (regulatoryRisk, transparencyRisk) in
  (* Check compliance: the compliance object is truthy *)
  let gdpr := obj_get (compliance analysis) "gdpr" in
  let ccpa := obj_get (compliance analysis) "ccpa" in
  let regulatoryRisk :=
    if is_string gdpr "non-compliant" || is_string ccpa "non-compliant"
    then red
    else if is_string gdpr "partially" || is_string ccpa "partially"
    then yellow
    else regulatoryRisk in
  (* Check user rights *)
  hasUserRights ← some_of section_has_rights (sections analysis);
  let userRightsRisk := if negb hasUserRights then yellow else userRightsRisk in
  (* Overall risk is the highest of the three *)
  let risks := [regulatoryRisk; transparencyRisk; userRightsRisk] in
  Returns {| overall := overallRisk risks;
             regulatory := regulatoryRisk;
             transparency := transparencyRisk;
             userRights := userRightsRisk |}.

End WithHost.

End Scorer.
Export Scorer.

(** ** Analysis pipeline: [PolicyAnalyzer] *)

Module Analyzer.

(** *** Chunker *)

(** The characters of the class [[.!?]]. *)
Definition is_terminator (c : ascii) : bool :=
  bool_decide (c = "."%char ∨ c = "!"%char ∨ c = "?"%char).

(** [content.split(/[.!?]+/)]: the pieces between maximal runs of
    terminators; [cur] is the piece being read and [in_run] tells whether
    the previous character was a terminator. *)
Fixpoint split_go (content cur : string) (in_run : bool) : list string :=
  match content with
  | EmptyString => [cur]
  | String c rest =>
      if is_terminator c then
        if in_run then split_go rest cur true
        else cur :: split_go rest EmptyString true
      else split_go rest (cur ++ String c EmptyString) false
  end.

Definition split_sentences (content : string) : list string :=
  split_go content EmptyString false.

(** White space of [String.prototype.trim] among 8-bit code units:
    TAB, LF, VT, FF, CR, SPACE and NBSP. *)
Definition is_white_space (c : ascii) : bool :=
  let n := nat_of_ascii c in
  bool_decide ((9 ≤ n ≤ 13)%nat ∨ n = 32%nat ∨ n = 160%nat).

Fixpoint trim_start (s : string) : string :=
  match s with
  | EmptyString => EmptyString
  | String c rest => if is_white_space c then trim_start rest else s
  end.

Fixpoint trim_end (s : string) : string :=
  match s with
  | EmptyString => EmptyString
  | String c rest =>
      match trim_end rest with
      | EmptyString => if is_white_space c then EmptyString else String c EmptyString
      | kept => String c kept
      end
  end.

Definition trim (s : string) : string := trim_end (trim_start s).

(** A non-empty string is truthy. *)
Definition nonempty (s : string) : bool := negb (String.eqb s "").

(** The state of the loop of [chunkContent]. *)
Record ChunkerState := {
  chunks : list string;
  currentChunk : string
}.

(** [if (currentChunk.trim()) chunks.push(currentChunk.trim())] *)
Definition push_current (st : ChunkerState) : list string :=
  if nonempty (trim (currentChunk st))
  then chunks st ++ [trim (currentChunk st)]
  else chunks st.

Definition chunk_step (maxChunkSize : nat) (st : ChunkerState)
    (sentence : string) : ChunkerState :=
  if bool_decide (maxChunkSize < String.length (currentChunk st ++ sentence))%nat
  then {| chunks := push_current st; currentChunk := sentence |}
  else {| chunks := chunks st;
          currentChunk :=
            currentChunk st
            ++ (if nonempty (currentChunk st) then ". " else "")
            ++ sentence |}.

Definition chunkContent (content : string) (maxChunkSize : nat) : list string :=
  let sentences :=
    filter (λ s, 10 < String.length (trim s))%nat (split_sentences content) in
  let final :=
    foldl (chunk_step maxChunkSize)
          {| chunks := []; currentChunk := "" |} sentences in
  filter (λ chunk, 50 < String.length chunk)%nat (push_current final).

Definition defaultMaxChunkSize : nat := 2000.

(** *** Inference *)

(** What one call of the inference service followed by [JSON.parse] of its
    text does.  Of the prompts only the conversions to string made while
    building them are modelled: the reply may depend on anything. *)
Inductive AIReply :=
  | RunFails (e : JSError)
  | Unparsable
  | Parsed (v : JValue).

(** [JSON.parse((await this.env.AI.run(...)).response)] *)
Definition run_and_parse (reply : AIReply) : outcome JValue :=
  match reply with
  | RunFails e => Throws e
  | Unparsable => Throws SyntaxError
  | Parsed v => Returns v
  end.

Definition placeholderFinding : JValue :=
  JObj [("keyPoints", JArr [JStr "Unable to analyze this section"]);
        ("redFlags", JArr []);
        ("compliance", JObj [("gdpr", JStr "unknown"); ("ccpa", JStr "unknown")]);
        ("userRights", JArr [])].

(** The [try] block of [analyzeChunk] with its [catch]. *)
Definition finding_of (reply : AIReply) : JValue :=
  try_catch (run_and_parse reply) (λ _, placeholderFinding).

(** The prompts interpolate [type] and the chunk, a string, before the
    [try]. *)
Definition analyzeChunk (reply : AIReply) (type : JValue) : outcome JValue :=
  _ ← interpolate [type];
  Returns (finding_of reply).

Definition fallbackSummary : JValue :=
  JObj [("executiveSummary", JStr "Analysis completed with limited AI processing.");
        ("recommendations",
         JArr [JStr "Review the full policy text";
               JStr "Consult with a privacy expert if needed"])].

(** The prompt interpolates [type] and joins [keyPoints] and [redFlags]
    before the [try]. *)
Definition generateSummaryAnalysis (reply : AIReply) (analysis : Analysis)
    (type : JValue) : outcome JValue :=
  _ ← interpolate (type :: keyPoints analysis ++ redFlags analysis);
  Returns (try_catch (run_and_parse reply) (λ _, fallbackSummary)).

(** *** Aggregation: [performAIAnalysis] *)

Definition initialAnalysis : Analysis :=
  {| executiveSummary := JStr ""; keyPoints := []; redFlags := [];
     recommendations := JArr []; compliance := []; sections := [] |}.

Definition set_executiveSummary (v : JValue) (a : Analysis) : Analysis :=
  {| executiveSummary := v; keyPoints := keyPoints a; redFlags := redFlags a;
     recommendations := recommendations a; compliance := compliance a;
     sections := sections a |}.

Definition set_keyPoints (v : list JValue) (a : Analysis) : Analysis :=
  {| executiveSummary := executiveSummary a; keyPoints := v;
     redFlags := redFlags a; recommendations := recommendations a;
     compliance := compliance a; sections := sections a |}.

Definition set_redFlags (v : list JValue) (a : Analysis) : Analysis :=
  {| executiveSummary := executiveSummary a; keyPoints := keyPoints a;
     redFlags := v; recommendations := recommendations a;
     compliance := compliance a; sections := sections a |}.

Definition set_recommendations (v : JValue) (a : Analysis) : Analysis :=
  {| executiveSummary := executiveSummary a; keyPoints := keyPoints a;
     redFlags := redFlags a; recommendations := v;
     compliance := compliance a; sections := sections a |}.

Definition set_compliance (v : list (string * JValue)) (a : Analysis) : Analysis :=
  {| executiveSummary := executiveSummary a; keyPoints := keyPoints a;
     redFlags := redFlags a; recommendations := recommendations a;
     compliance := v; sections := sections a |}.

Definition set_sections (v : list JValue) (a : Analysis) : Analysis :=
  {| executiveSummary := executiveSummary a; keyPoints := keyPoints a;
     redFlags := redFlags a; recommendations := recommendations a;
     compliance := compliance a; sections := v |}.

(** The statements of the loop body after [analyzeChunk] has returned. *)
Definition aggregate (chunkAnalysis : JValue) : stateful Analysis unit :=
  _ ← modify (λ a, set_sections (sections a ++ [chunkAnalysis]) a);
  points ← lift (get_field chunkAnalysis "keyPoints");
  _ ← (if truthy points then
         items ← lift (spread points);
         modify (λ a, set_keyPoints (keyPoints a ++ items) a)
       else mret ());
  flags ← lift (get_field chunkAnalysis "redFlags");
  _ ← (if truthy flags then
         items ← lift (spread flags);
         modify (λ a, set_redFlags (redFlags a ++ items) a)
       else mret ());
  tags ← lift (get_field chunkAnalysis "compliance");
  if truthy tags then
    modify (λ a, set_compliance (object_assign (compliance a) tags) a)
  else mret ().

(** One iteration of [for (const chunk of sampleChunks)]: the body is
    wrapped in a [try] whose [catch] only logs. *)
Definition chunk_iteration (reply : AIReply) (type : JValue)
  : stateful Analysis unit :=
  try_catch_st
    (chunkAnalysis ← lift (analyzeChunk reply type);
     aggregate chunkAnalysis)
    (λ _, mret ()).

(** The loop; [ai i] is the reply to the inference call made for the
    [i]-th sampled chunk, and [ai (length sampleChunks)] the reply to the
    summary call. *)
Fixpoint for_each_chunk (ai : nat → AIReply) (type : JValue) (i : nat)
    (sampleChunks : list string) : stateful Analysis unit :=
  match sampleChunks with
  | [] => mret ()
  | _ :: rest =>
      _ ← chunk_iteration (ai i) type;
      for_each_chunk ai type (S i) rest
  end.

Definition summarize (reply : AIReply) (type : JValue) : stateful Analysis unit :=
  try_catch_st
    (analysis ← read id;
     summaryAnalysis ← lift (generateSummaryAnalysis reply analysis type);
     summary ← lift (get_field summaryAnalysis "executiveSummary");
     _ ← modify (set_executiveSummary summary);
     advice ← lift (get_field summaryAnalysis "recommendations");
     modify (set_recommendations advice))
    (λ _,
     _ ← modify (set_executiveSummary (JStr "Unable to generate summary analysis."));
     modify (set_recommendations (JArr [JStr "Review the policy manually"]))).

(** Limit arrays to prevent excessive size. *)
Definition limit_arrays : stateful Analysis unit :=
  _ ← modify (λ a, set_keyPoints (take 10 (keyPoints a)) a);
  _ ← modify (λ a, set_redFlags (take 5 (redFlags a)) a);
  advice ← read recommendations;
  limited ← lift (slice_to 5 advice);
  modify (set_recommendations limited).

Definition performAIAnalysis (ai : nat → AIReply) (chunks : list string)
    (type : JValue) : outcome Analysis :=
  let sampleChunks := take 3 chunks in
  let run : stateful Analysis unit :=
    _ ← for_each_chunk ai type 0 sampleChunks;
    _ ← summarize (ai (length sampleChunks)) type;
    limit_arrays in
  match run initialAnalysis with
  | (analysis, Returns _) => Returns analysis
  | (_, Throws e) => Throws e
  end.

(** *** [analyzePolicy] *)

Record PolicyResult := {
  url : string;
  type : JValue;
  contentLength : nat;
  processedLength : nat;
  chunksAnalyzed : nat;
  analysis : Analysis;
  riskScores : RiskAssessment;
  timestamp : Z;
  version : string
}.

Section WithHost.

Variable to_number_gt0 : JValue → bool.

(** [fetchPolicyContent] downloads the page and strips its markup;
    [preprocessContent] removes navigation phrases with regular expressions.
    Both are kept abstract: a fetch that throws or any text they return. *)
Variable fetchPolicyContent : string → outcome string.
Variable preprocessContent : string → JValue → string.

Definition analyzePolicy (ai : nat → AIReply) (now : Z) (url : string)
    (type : JValue) : outcome PolicyResult :=
  let body : outcome PolicyResult :=
    content ← fetchPolicyContent url;
    let processedContent := preprocessContent content type in
    let chunks := chunkContent processedContent defaultMaxChunkSize in
    analysis ← performAIAnalysis ai chunks type;
    riskScores ← calculateRiskScores to_number_gt0 analysis;
    mret {| url := url; type := type;
            contentLength := String.length content;
            processedLength := String.length processedContent;
            chunksAnalyzed := length chunks;
            analysis := analysis; riskScores := riskScores;
            timestamp := now; version := "1.0.0" |} in
  match body with
  | Returns result => Returns result
  | Throws e => Throws (Wrapped "Analysis failed: " e)
  end.

End WithHost.

End Analyzer.
Export Analyzer.

(** ** The cache partition: the [PolicyCache] durable object *)

Module Cache.

(** [s.endsWith(suffix)] *)
Definition ends_with (s suffix : string) : bool :=
  String.prefix (String.rev suffix) (String.rev s).

Section WithValue.

(** The cached analysis result and its truthiness ([!result]). *)
Context {V : Type}.
Variable truthy_result : V → bool.

Record CacheEntry := {
  result : V;
  timestamp : Z;
  expiresAt : Z;
  ttlMinutes : Z
}.

(** [this.cache] is the in-memory [Map]; [stored] is what the storage holds
    under the key ['cache'] (the entries without their order); [alarmAt] is
    the alarm pending in the storage, of which there is at most one:
    [setAlarm] replaces it. *)
Record PolicyCache := {
  cache : gmap string CacheEntry;
  stored : option (gmap string CacheEntry);
  alarmAt : option Z;
  initialized : bool
}.

Definition newPolicyCache : PolicyCache :=
  {| cache := ∅; stored := None; alarmAt := None; initialized := false |}.

Definition set_cache (m : gmap string CacheEntry) (st : PolicyCache) :=
  {| cache := m; stored := stored st; alarmAt := alarmAt st;
     initialized := initialized st |}.

(** The storage calls throw when the storage is at fault. *)
Record StorageFaults := {
  get_fault : option JSError;
  put_fault : option JSError;
  setAlarm_fault : option JSError
}.

Definition no_faults : StorageFaults :=
  {| get_fault := None; put_fault := None; setAlarm_fault := None |}.

Definition storage_get (fault : option JSError)
  : stateful PolicyCache (option (gmap string CacheEntry)) := λ st,
  match fault with
  | Some e => (st, Throws e)
  | None => (st, Returns (stored st))
  end.

(** [this.state.storage.put('cache', Array.from(this.cache.entries()))] *)
Definition storage_put_cache (fault : option JSError)
  : stateful PolicyCache unit := λ st,
  match fault with
  | Some e => (st, Throws e)
  | None => ({| cache := cache st; stored := Some (cache st);
                alarmAt := alarmAt st; initialized := initialized st |},
             Returns ())
  end.

Definition storage_setAlarm (fault : option JSError) (time : Z)
  : stateful PolicyCache unit := λ st,
  match fault with
  | Some e => (st, Throws e)
  | None => ({| cache := cache st; stored := stored st;
                alarmAt := Some time; initialized := initialized st |},
             Returns ())
  end.

(** The body of a request as [await request.json()] yields it; an absent
    field is [undefined]. *)
Record RequestBody := {
  url : option string;
  body_result : option V;
  body_ttlMinutes : option Z;
  id : option string
}.

Record Request := {
  method : string;
  pathname : string;
  json : outcome RequestBody
}.

Inductive ResponseBody :=
  | ErrorJson (e : JSError)
  | SuccessJson
  | EntryJson (result : V) (timestamp expiresAt : Z)
  | StatsJson (totalEntries activeEntries expiredEntries : nat)
  | CleanupJson (removed remaining : nat)
  | Text (text : string).

Record Response := {
  status : Z;
  body : ResponseBody
}.

(** [!url] for a string: absent or empty. *)
Definition falsy_string (s : option string) : bool :=
  match s with
  | Some s => String.eqb s ""
  | None => true
  end.

Definition falsy_result (r : option V) : bool :=
  match r with
  | Some v => negb (truthy_result v)
  | None => true
  end.

(** The [catch] block shared by the handlers. *)
Definition internal_error (e : JSError) : stateful PolicyCache Response :=
  mret {| status := 500; body := ErrorJson e |}.

(** [now] is the clock read for [expiresAt], [now'] the later one read for
    [timestamp].  [ttlMinutes] is a whole number here, on which the sum is
    exact in the doubles of the source; [StoreDoubles.expiresAt_double]
    below is the same sum for any double. *)
Definition handleStore (request : Request) (now now' : Z)
    (faults : StorageFaults) : stateful PolicyCache Response :=
  try_catch_st
    (fields ← lift (json request);
     let ttlMinutes := default 30 (body_ttlMinutes fields) in
     if falsy_string (url fields) || falsy_result (body_result fields) then
       mret {| status := 400; body := ErrorJson (Error "URL and result are required") |}
     else
       match url fields, body_result fields with
       | Some url, Some result =>
           let expiresAt := now + ttlMinutes * 60 * 1000 in
           let cacheEntry :=
             {| result := result; timestamp := now';
                expiresAt := expiresAt; ttlMinutes := ttlMinutes |} in
           _ ← modify (λ st, set_cache (<[url := cacheEntry]> (cache st)) st);
           (* Persist to storage *)
           _ ← storage_put_cache (put_fault faults);
           (* Set up alarm for cleanup *)
           _ ← storage_setAlarm (setAlarm_fault faults) expiresAt;
           mret {| status := 200; body := SuccessJson |}
       | _, _ => mret {| status := 400; body := ErrorJson (Error "URL and result are required") |}
       end)
    internal_error.

(** The answer of [handleCheck] and [handleGet] for a key. *)
Definition lookup_entry (key : string) (now : Z) : stateful PolicyCache Response :=
  cached ← read (λ st, cache st !! key);
  match cached with
  | Some cached =>
      if bool_decide (now < expiresAt cached) then
        mret {| status := 200;
                body := EntryJson (result cached) (timestamp cached) (expiresAt cached) |}
      else mret {| status := 404; body := Text "Not found" |}
  | None => mret {| status := 404; body := Text "Not found" |}
  end.

Definition handleCheck (request : Request) (now : Z)
  : stateful PolicyCache Response :=
  try_catch_st
    (fields ← lift (json request);
     match url fields with
     | Some url =>
         if String.eqb url "" then
           mret {| status := 400; body := ErrorJson (Error "URL is required") |}
         else lookup_entry url now
     | None => mret {| status := 400; body := ErrorJson (Error "URL is required") |}
     end)
    internal_error.

(** Look-up by [id] is not implemented: the key is the URL. *)
Definition handleGet (request : Request) (now : Z)
  : stateful PolicyCache Response :=
  try_catch_st
    (fields ← lift (json request);
     let cacheKey := url fields in
     match cacheKey with
     | Some cacheKey =>
         if String.eqb cacheKey "" then
           mret {| status := 400; body := ErrorJson (Error "URL or ID is required") |}
         else lookup_entry cacheKey now
     | None => mret {| status := 400; body := ErrorJson (Error "URL or ID is required") |}
     end)
    internal_error.

(** [totalSize], the length of the serialized entries, is left out. *)
Definition handleStats (now : Z) : stateful PolicyCache Response :=
  entries ← read (λ st, (map_to_list (cache st)).*2);
  mret {| status := 200;
          body := StatsJson
            (length entries)
            (length (filter (λ entry, now < expiresAt entry) entries))
            (length (filter (λ entry, expiresAt entry ≤ now) entries)) |}.

(** The bulk sweep by creation time; a request without [ttlMinutes] makes
    the cutoff [NaN], against which no entry compares older. *)
Definition handleCleanup (request : Request) (now : Z) (faults : StorageFaults)
  : stateful PolicyCache Response :=
  try_catch_st
    (fields ← lift (json request);
     before ← read (λ st, size (cache st));
     _ ← match body_ttlMinutes fields with
         | Some ttlMinutes =>
             let cutoff := now - ttlMinutes * 60 * 1000 in
             modify (λ st,
               set_cache (filter (λ kv, ¬ (timestamp kv.2 < cutoff)) (cache st)) st)
         | None => mret ()
         end;
     _ ← storage_put_cache (put_fault faults);
     remaining ← read (λ st, size (cache st));
     mret {| status := 200; body := CleanupJson (before - remaining) remaining |})
    internal_error.

(** [Math.min(...xs)] of a non-empty array. *)
Definition math_min (xs : list Z) : option Z :=
  match xs with
  | [] => None
  | x :: rest => Some (foldr Z.min x rest)
  end.

(** The earliest [expiresAt] over all entries, as [alarm] computes it. *)
Definition nextExpiry (m : gmap string CacheEntry) : option Z :=
  math_min (expiresAt <$> (map_to_list m).*2).

(** The scheduled eviction callback; it has no [try]. *)
Definition alarm (now : Z) (faults : StorageFaults) : stateful PolicyCache unit :=
  before ← read (λ st, size (cache st));
  _ ← modify (λ st, set_cache (filter (λ kv, ¬ (expiresAt kv.2 ≤ now)) (cache st)) st);
  remaining ← read (λ st, size (cache st));
  _ ← (if bool_decide (0 < before - remaining)%nat
       then storage_put_cache (put_fault faults) else mret ());
  next ← read (λ st, nextExpiry (cache st));
  match next with
  | Some nextExpiry => storage_setAlarm (setAlarm_fault faults) nextExpiry
  | None => mret ()
  end.

Definition initialize (faults : StorageFaults) : stateful PolicyCache unit :=
  ready ← read initialized;
  if (ready : bool) then mret ()
  else
    loaded ← storage_get (get_fault faults);
    _ ← match loaded with
        | Some entries => modify (set_cache entries)
        | None => mret ()
        end;
    modify (λ st, {| cache := cache st; stored := stored st;
                     alarmAt := alarmAt st; initialized := true |}).

(** The entry point of the durable object. *)
Definition fetch (request : Request) (now now' : Z) (faults : StorageFaults)
  : stateful PolicyCache Response :=
  _ ← initialize faults;
  if String.eqb (method request) "POST" && ends_with (pathname request) "/store"
  then handleStore request now now' faults
  else if String.eqb (method request) "POST" && ends_with (pathname request) "/check"
  then handleCheck request now
  else if String.eqb (method request) "POST" && ends_with (pathname request) "/get"
  then handleGet request now
  else if String.eqb (method request) "GET" && ends_with (pathname request) "/stats"
  then handleStats now
  else if String.eqb (method request) "POST" && ends_with (pathname request) "/cleanup"
  then handleCleanup request now faults
  else mret {| status := 405; body := Text "Method not allowed" |}.

End WithValue.

Arguments CacheEntry : clear implicits.
Arguments PolicyCache : clear implicits.
Arguments RequestBody : clear implicits.
Arguments Request : clear implicits.
Arguments ResponseBody : clear implicits.
Arguments Response : clear implicits.

End Cache.

(** ** The expiry sum of [handleStore] on doubles *)

Module StoreDoubles.

Import Floats.PrimFloat.
#[local] Set Warnings "-inexact-float".
Local Open Scope float_scope.

(** [Date.now() + (ttlMinutes * 60 * 1000)] as the source computes it, on
    IEEE 754 binary64 numbers with rounding to nearest.  [Cache.handleStore]
    is this sum for a [ttlMinutes] that is a whole number, on which it is
    exact; here [ttlMinutes] is any double. *)
Definition expiresAt_double (now ttlMinutes : float) : float :=
  now + ttlMinutes * 60 * 1000.

(** A clock value of November 2023, in milliseconds. *)
Definition clock : float := 1700000000000.

(** The JSON number [1e-10]. *)
Definition tiny_ttl : float := 1e-10.

End StoreDoubles.

(** ** Admission control: [checkRateLimit] *)

Module RateLimit.

(** The bindings of the worker's environment that the modelled code reads. *)
Record Env := {
  RATE_LIMIT_WINDOW_MINUTES : option Z;
  RATE_LIMIT_REQUESTS_PER_MINUTE : option Z;
  ANALYSIS_CACHE_TTL_MINUTES : option Z
}.

(** [x || d] for a number: [undefined] and [0] are falsy. *)
Definition or_default (x : option Z) (d : Z) : Z :=
  match x with
  | Some v => if v =? 0 then d else v
  | None => d
  end.

Definition windowMs (env : Env) : Z :=
  or_default (RATE_LIMIT_WINDOW_MINUTES env) 1 * 60 * 1000.

Definition maxRequests (env : Env) : Z :=
  or_default (RATE_LIMIT_REQUESTS_PER_MINUTE env) 10.

(** [requests.filter(time => now - time < windowMs)] *)
Definition valid_requests (now windowMs : Z) (requests : list Z) : list Z :=
  filter (λ time, now - time < windowMs) requests.

Definition cleanupRateLimitStore (now windowMs : Z)
    (store : gmap string (list Z)) : gmap string (list Z) :=
  omap (λ requests,
          let validRequests := valid_requests now windowMs requests in
          if bool_decide (length validRequests = 0%nat) then None
          else Some validRequests)
       store.

(** [rateLimitStore] is the state; [lucky] tells whether
    [Math.random() < 0.01] held at this call. *)
Definition checkRateLimit (identifier : string) (env : Env) (now : Z)
    (lucky : bool) : stateful (gmap string (list Z)) unit :=
  let windowMs := windowMs env in
  let maxRequests := maxRequests env in
  userRequests ← read (λ store, default [] (store !! identifier));
  (* Remove old requests outside the window *)
  let validRequests := valid_requests now windowMs userRequests in
  if bool_decide (maxRequests ≤ Z.of_nat (length validRequests)) then
    lift (Throws (Error "Rate limit exceeded"))
  else
    (* Add current request *)
    let validRequests := (validRequests ++ [now])%list in
    _ ← modify (λ store, <[identifier := validRequests]> store);
    (* Clean up old entries periodically *)
    if lucky then modify (cleanupRateLimitStore now windowMs) else mret ().

(** Successive calls for one identifier, each at its own time. *)
Fixpoint admit_each (identifier : string) (env : Env)
    (calls : list (Z * bool)) : stateful (gmap string (list Z)) unit :=
  match calls with
  | [] => mret ()
  | (now, lucky) :: rest =>
      _ ← checkRateLimit identifier env now lucky;
      admit_each identifier env rest
  end.

End RateLimit.

(** ** The [/api/analyze] handler *)

Module Analyze.

Import RateLimit.

(** What the handler shares with other requests. *)
Record World := {
  rateLimitStore : gmap string (list Z);
  policyCache : Cache.PolicyCache PolicyResult
}.

Definition on_rate {A} (m : stateful (gmap string (list Z)) A) : stateful World A :=
  λ w, let '(s, r) := m (rateLimitStore w) in
       ({| rateLimitStore := s; policyCache := policyCache w |}, r).

Definition on_cache {A} (m : stateful (Cache.PolicyCache PolicyResult) A)
  : stateful World A :=
  λ w, let '(s, r) := m (policyCache w) in
       ({| rateLimitStore := rateLimitStore w; policyCache := s |}, r).

(** The successive reads of [Date.now()] during one request. *)
Record Times := {
  at_admission : Z;
  at_check : Z;
  at_analysis : Z;
  at_store : Z;
  at_store' : Z;
  at_response : Z
}.

(** Everything the handler obtains from outside during one request.  A call
    to the durable object can be rejected by the platform before it reaches
    the object ([check_call_fault], [store_call_fault]). *)
Record Host := {
  times : Times;
  lucky : bool;
  parse_url : string → outcome string;
  to_number_gt0 : JValue → bool;
  fetchPolicyContent : string → outcome string;
  preprocessContent : string → JValue → string;
  ai : nat → AIReply;
  check_call_fault : option JSError;
  check_faults : Cache.StorageFaults;
  store_call_fault : option JSError;
  store_faults : Cache.StorageFaults
}.

(** [request.url] is given by its path and its query string ([search] is
    empty or starts with a question mark). *)
Record HttpRequest := {
  method : string;
  pathname : string;
  search : string;
  clientIP : option string;
  json : outcome JValue
}.

Inductive AnalyzeJson :=
  | FailureJson (error : string) (message : option JSError)
  | ThrownJson (e : JSError)
  | ResultJson (result : option PolicyResult) (cached : bool) (timestamp : option Z).

Record HttpResponse := {
  status : Z;
  body : AnalyzeJson
}.

(** The [success] field of the answer. *)
Definition success (r : HttpResponse) : bool :=
  match body r with
  | ResultJson _ _ _ => true
  | _ => false
  end.

(** [validatePolicyUrl]: the type test, then the parsing and the checks on
    scheme and host, which rest on the host's URL parser. *)
Definition validatePolicyUrl (parse_url : string → outcome string)
    (url : JValue) : outcome string :=
  match url with
  | JStr s =>
      if String.eqb s "" then Throws (Error "URL is required and must be a string")
      else parse_url s
  | _ => Throws (Error "URL is required and must be a string")
  end.

(** The path of the request made of [`${request.url}/suffix`]: a suffix
    appended after a query string belongs to the query. *)
Definition sub_path (request : HttpRequest) (suffix : string) : string :=
  if String.eqb (search request) "" then pathname request ++ suffix
  else pathname request.

(** [cacheStub.fetch(...)] *)
Definition stub_fetch (call_fault : option JSError)
    (request : Cache.Request PolicyResult) (now now' : Z)
    (faults : Cache.StorageFaults) : stateful World (Cache.Response PolicyResult) :=
  match call_fault with
  | Some e => lift (Throws e)
  | None => on_cache (Cache.fetch (λ _, true) request now now' faults)
  end.

Definition cache_request (path : string) (url : string)
    (result : option PolicyResult) (ttlMinutes : option Z)
  : Cache.Request PolicyResult :=
  {| Cache.method := "POST"; Cache.pathname := path;
     Cache.json := Returns {| Cache.url := Some url;
                              Cache.body_result := result;
                              Cache.body_ttlMinutes := ttlMinutes;
                              Cache.id := None |} |}.

(** [await cacheResponse.json()] *)
Definition response_json (r : Cache.Response PolicyResult)
  : outcome (Cache.ResponseBody PolicyResult) :=
  match Cache.body r with
  | Cache.Text _ => Throws SyntaxError
  | data => Returns data
  end.

Definition text_of (v : JValue) : string :=
  match v with
  | JStr s => s
  | _ => ""
  end.

(** [request.headers.get('CF-Connecting-IP') || 'unknown'] *)
Definition client_of (request : HttpRequest) : string :=
  match clientIP request with
  | Some ip => if String.eqb ip "" then "unknown" else ip
  | None => "unknown"
  end.

(** The default of the destructuring [type = 'privacy']. *)
Definition or_privacy (type : JValue) : JValue :=
  match type with
  | JUndefined => JStr "privacy"
  | t => t
  end.

Definition handleAnalyze (host : Host) (env : Env) (request : HttpRequest)
  : stateful World HttpResponse :=
  try_catch_st
    (if negb (String.eqb (method request) "POST") then
       mret {| status := 405; body := FailureJson "Method not allowed" None |}
     else
       match json request with
       | Throws _ =>
           mret {| status := 400; body := FailureJson "Invalid JSON body" None |}
       | Returns body =>
           url ← lift (get_field body "url");
           type ← lift (get_field body "type");
           let type := or_privacy type in
           if negb (truthy url) then
             mret {| status := 400; body := FailureJson "URL is required" None |}
           else
             match validatePolicyUrl (parse_url host) url with
             | Throws e => mret {| status := 400; body := ThrownJson e |}
             | Returns _ =>
                 let url := text_of url in
                 let clientIP := client_of request in
                 admitted ← try_catch_st
                   (_ ← on_rate (checkRateLimit clientIP env
                                   (at_admission (times host)) (lucky host));
                    mret true)
                   (λ _, mret false);
                 if negb admitted then
                   mret {| status := 429;
                           body := FailureJson "Rate limit exceeded. Please try again later." None |}
                 else
                   (* Check cache first *)
                   cacheResponse ← stub_fetch (check_call_fault host)
                     (cache_request (sub_path request "/check") url None None)
                     (at_check (times host)) (at_check (times host))
                     (check_faults host);
                   if Cache.status cacheResponse =? 200 then
                     cachedData ← lift (response_json cacheResponse);
                     match cachedData with
                     | Cache.EntryJson result timestamp _ =>
                         mret {| status := 200;
                                 body := ResultJson (Some result) true (Some timestamp) |}
                     | _ =>
                         mret {| status := 200; body := ResultJson None true None |}
                     end
                   else
                     (* Perform analysis *)
                     analysisResult ← lift
                       (analyzePolicy (to_number_gt0 host) (fetchPolicyContent host)
                          (preprocessContent host) (ai host)
                          (at_analysis (times host)) url type);
                     (* Cache the result *)
                     _ ← stub_fetch (store_call_fault host)
                       (cache_request (sub_path request "/store") url
                          (Some analysisResult)
                          (Some (or_default (ANALYSIS_CACHE_TTL_MINUTES env) 30)))
                       (at_store (times host)) (at_store' (times host))
                       (store_faults host);
                     mret {| status := 200;
                             body := ResultJson (Some analysisResult) false
                                       (Some (at_response (times host))) |}
             end
       end)
    (λ error,
     mret {| status := 500; body := FailureJson "Analysis failed" (Some error) |}).

End Analyze.

(** * Properties *)

(** ** Risk scorer *)

Module ScorerFacts.

Lemma risk_max_upper (a b : Risk) :
  risk_le a (risk_max a b) ∧ risk_le b (risk_max a b).
Proof. destruct a, b; vm_compute; lia. Qed.

Lemma risk_max_least (a b c : Risk) :
  risk_le a c → risk_le b c → risk_le (risk_max a b) c.
Proof. destruct a, b, c; vm_compute; lia. Qed.

(** For all of {green, yellow, red}³ the chained [includes] tests pick the
    maximum. *)
Lemma overallRisk_cube (r t u : Risk) :
  overallRisk [r; t; u] = risk_max r (risk_max t u).
Proof. destruct r, t, u; reflexivity. Qed.

(** The scorer can read the user rights of a section: neither the section
    nor the conversion of a [length] of its own stands in the way. *)
Definition readable (gt0 : JValue → bool) (section : JValue) : Prop :=
  ∃ b, section_has_rights gt0 section = Returns b.

Lemma array_rights_readable gt0 (props : list (string * JValue))
    (items : list JValue) :
  obj_get props "userRights" = JArr items → readable gt0 (JObj props).
Proof.
  intros Hrights. unfold readable, section_has_rights. simpl.
  rewrite Hrights. simpl. eauto.
Qed.

Lemma some_of_returns gt0 (xs : list JValue) :
  Forall (readable gt0) xs →
  ∃ b, some_of (section_has_rights gt0) xs = Returns b.
Proof.
  induction 1 as [|x xs [hit Hx] _ [b IH]]; simpl; [eauto|].
  rewrite Hx. simpl. destruct hit; eauto.
Qed.

(** The scorer returns as soon as it can read every section. *)
Lemma calculateRiskScores_returns gt0 (a : Analysis) :
  Forall (readable gt0) (sections a) →
  ∃ ra, calculateRiskScores gt0 a = Returns ra.
Proof.
  intros H. destruct (some_of_returns gt0 _ H) as [b Hb].
  unfold calculateRiskScores. rewrite Hb. simpl.
  destruct (bool_decide _); eauto.
Qed.

(** What the scorer computes for [regulatory] and [transparency] when the
    analysis has red flags: a "partially" tag lowers the [red] set for the
    flags to [yellow]. *)
Lemma red_flags_axes gt0 (a : Analysis) (ra : RiskAssessment) :
  redFlags a ≠ [] →
  calculateRiskScores gt0 a = Returns ra →
  transparency ra = yellow ∧
  regulatory ra =
    (if is_string (obj_get (compliance a) "gdpr") "non-compliant"
        || is_string (obj_get (compliance a) "ccpa") "non-compliant"
     then red
     else if is_string (obj_get (compliance a) "gdpr") "partially"
             || is_string (obj_get (compliance a) "ccpa") "partially"
     then yellow else red).
Proof.
  intros Hflags. unfold calculateRiskScores.
  rewrite bool_decide_eq_true_2
    by (destruct (redFlags a); [done | simpl; lia]).
  destruct (some_of _ _) as [hit|e]; simpl; [|discriminate].
  intros [= <-]. simpl. done.
Qed.

(** An aggregated analysis with one red flag and a GDPR tag "partially",
    as [performAIAnalysis] builds it from a single finding. *)
Definition flagged_finding : JValue :=
  JObj [("keyPoints", JArr [JStr "Data is shared with advertising partners"]);
        ("redFlags", JArr [JStr "Sells personal data to third parties"]);
        ("compliance", JObj [("gdpr", JStr "partially"); ("ccpa", JStr "compliant")]);
        ("userRights", JArr [JStr "Right to delete"])].

Definition flagged_replies (i : nat) : AIReply :=
  match i with
  | O => Parsed flagged_finding
  | _ => RunFails (Error "inference unavailable")
  end.

Definition flagged_analysis : Analysis :=
  {| executiveSummary := JStr "Analysis completed with limited AI processing.";
     keyPoints := [JStr "Data is shared with advertising partners"];
     redFlags := [JStr "Sells personal data to third parties"];
     recommendations :=
       JArr [JStr "Review the full policy text";
             JStr "Consult with a privacy expert if needed"];
     compliance := [("gdpr", JStr "partially"); ("ccpa", JStr "compliant")];
     sections := [flagged_finding] |}.

(** C1, at the failing input.  The analysis aggregated from one finding with
    a red flag and the GDPR tag "partially" has a non-empty [redFlags], yet
    [calculateRiskScores] returns [regulatory = yellow], not [red]: the
    [else if] branch for "partially" overwrites the [red] assigned for the
    red flags.  With the same red flag and both tags "compliant" the score
    is [red]. *)
Theorem red_flags_with_partial_tag_score_yellow (gt0 : JValue → bool) :
  performAIAnalysis flagged_replies ["the only chunk"] (JStr "privacy") =
    Returns flagged_analysis ∧
  redFlags flagged_analysis ≠ [] ∧
  calculateRiskScores gt0 flagged_analysis =
    Returns {| overall := yellow; regulatory := yellow;
               transparency := yellow; userRights := green |} ∧
  calculateRiskScores gt0
    (set_compliance [("gdpr", JStr "compliant"); ("ccpa", JStr "compliant")]
       flagged_analysis) =
    Returns {| overall := red; regulatory := red;
               transparency := yellow; userRights := green |}.
Proof.
  split; [|split; [|split]]; [reflexivity | discriminate | reflexivity..].
Qed.

(** C2.  Whatever the analysis, the assessment that [calculateRiskScores]
    returns has [overall] equal to the maximum of [regulatory],
    [transparency] and [userRights] under green < yellow < red. *)
Theorem overall_is_max_of_axes (gt0 : JValue → bool) (a : Analysis)
    (ra : RiskAssessment) :
  calculateRiskScores gt0 a = Returns ra →
  overall ra = risk_max (regulatory ra) (risk_max (transparency ra) (userRights ra)).
Proof.
  unfold calculateRiskScores.
  destruct (bool_decide _), (some_of _ _) as [hit|e]; simpl;
    try discriminate; intros [= <-]; simpl; apply overallRisk_cube.
Qed.

Lemma overall_is_max_of_axes_witness :
  calculateRiskScores (λ _, false) flagged_analysis =
    Returns {| overall := yellow; regulatory := yellow;
               transparency := yellow; userRights := green |} ∧
  yellow = risk_max yellow (risk_max yellow green).
Proof.
  split; [reflexivity|].
  exact (overall_is_max_of_axes (λ _, false) flagged_analysis
           {| overall := yellow; regulatory := yellow;
              transparency := yellow; userRights := green |} eq_refl).
Defined.

End ScorerFacts.

(** ** Chunker *)

Module ChunkerFacts.

(** [n] copies of a character. *)
Fixpoint copies (n : nat) (c : ascii) : string :=
  match n with
  | O => EmptyString
  | S n => String c (copies n c)
  end.

Lemma length_append (s t : string) :
  String.length (s ++ t) = (String.length s + String.length t)%nat.
Proof. induction s as [|c s IH]; simpl; [done | by rewrite IH]. Qed.

Lemma length_trim_start (s : string) :
  (String.length (trim_start s) ≤ String.length s)%nat.
Proof.
  induction s as [|c s IH]; simpl; [done|].
  destruct (is_white_space c); simpl; lia.
Qed.

Lemma length_trim_end (s : string) :
  (String.length (trim_end s) ≤ String.length s)%nat.
Proof.
  induction s as [|c s IH]; simpl; [done|].
  destruct (trim_end s); [destruct (is_white_space c)|]; simpl in *; lia.
Qed.

Lemma length_trim (s : string) : (String.length (trim s) ≤ String.length s)%nat.
Proof.
  unfold trim. pose proof (length_trim_end (trim_start s)).
  pose proof (length_trim_start s). lia.
Qed.

Section Bound.

Variable maxChunkSize : nat.
Variable sentences : list string.

(** A chunk is within the bound up to one separator, or it is one sentence
    kept whole. *)
Definition chunk_ok (chunk : string) : Prop :=
  (String.length chunk ≤ maxChunkSize + 2)%nat ∨
  ∃ sentence, sentence ∈ sentences ∧ chunk = trim sentence.

Definition current_ok (current : string) : Prop :=
  (String.length current ≤ maxChunkSize + 2)%nat ∨ current ∈ sentences.

Definition chunker_inv (st : ChunkerState) : Prop :=
  Forall chunk_ok (chunks st) ∧ current_ok (currentChunk st).

Lemma push_current_ok (st : ChunkerState) :
  chunker_inv st → Forall chunk_ok (push_current st).
Proof.
  intros [Hchunks Hcur]. unfold push_current.
  destruct (nonempty _); [|done].
  apply Forall_app; split; [done|]. apply Forall_singleton.
  destruct Hcur as [Hlen|Hin]; [left|right; eauto].
  pose proof (length_trim (currentChunk st)). lia.
Qed.

Lemma chunk_step_inv (st : ChunkerState) (sentence : string) :
  sentence ∈ sentences →
  chunker_inv st → chunker_inv (chunk_step maxChunkSize st sentence).
Proof.
  intros Hin Hinv. unfold chunk_step. case_bool_decide as Hsize.
  - split; simpl; [by apply push_current_ok | by right].
  - destruct Hinv as [Hchunks _]. split; simpl; [done|]. left.
    rewrite length_append in Hsize. rewrite !length_append.
    destruct (nonempty (currentChunk st)); simpl; lia.
Qed.

Lemma foldl_chunk_step_inv (todo : list string) (st : ChunkerState) :
  Forall (.∈ sentences) todo →
  chunker_inv st → chunker_inv (foldl (chunk_step maxChunkSize) st todo).
Proof.
  intros Hall. revert st.
  induction Hall as [|sentence todo Hin _ IH]; intros st Hinv; simpl; [done|].
  by apply IH, chunk_step_inv.
Qed.

End Bound.

(** What the greedy pass does guarantee: a chunk made of several sentences
    exceeds [maxChunkSize] by at most the two characters of one separator,
    and a longer chunk is a single sentence, which is never cut. *)
Lemma chunkContent_bound (content : string) (maxChunkSize : nat) (chunk : string) :
  chunk ∈ chunkContent content maxChunkSize →
  (String.length chunk ≤ maxChunkSize + 2)%nat ∨
  ∃ sentence, sentence ∈ split_sentences content ∧ chunk = trim sentence.
Proof.
  unfold chunkContent. intros [_ Hin]%list_elem_of_filter.
  set (sentences := filter _ _) in Hin.
  assert (chunker_inv maxChunkSize sentences
            (foldl (chunk_step maxChunkSize)
               {| chunks := []; currentChunk := "" |} sentences)) as Hinv.
  { apply foldl_chunk_step_inv.
    - by apply Forall_forall.
    - split; simpl; [done|]. left. simpl. lia. }
  apply push_current_ok in Hinv.
  rewrite Forall_forall in Hinv. destruct (Hinv _ Hin) as [?|(s & Hs & ->)].
  - by left.
  - right. exists s. split; [|done].
    by apply list_elem_of_filter in Hs as [_ ?].
Qed.

(** A page of one sentence. *)
Definition one_sentence_page : string :=
  "We collect your e-mail address and share it with our partners".

Lemma one_sentence_page_chunks :
  chunkContent one_sentence_page defaultMaxChunkSize = [one_sentence_page].
Proof. vm_compute. reflexivity. Qed.

Lemma chunkContent_bound_witness :
  (String.length one_sentence_page ≤ defaultMaxChunkSize + 2)%nat ∨
  ∃ sentence,
    sentence ∈ split_sentences one_sentence_page ∧
    one_sentence_page = trim sentence.
Proof.
  apply (chunkContent_bound one_sentence_page defaultMaxChunkSize one_sentence_page).
  rewrite one_sentence_page_chunks. left.
Defined.

(** Two sentences of 1000 characters each. *)
Definition two_long_sentences : string :=
  copies 1000 "a" ++ "." ++ copies 1000 "b".

(** C3, at the failing input.  For a text of two sentences of 1000
    characters, [chunkContent] with the default [maxChunkSize] of 2000
    returns one chunk of 2002 characters: the size test is made on
    [currentChunk + sentence], before the separator [". "] is inserted. *)
Theorem chunk_longer_than_maxChunkSize :
  chunkContent two_long_sentences defaultMaxChunkSize =
    [copies 1000 "a" ++ ". " ++ copies 1000 "b"] ∧
  String.length (copies 1000 "a" ++ ". " ++ copies 1000 "b") = 2002%nat.
Proof. split; vm_compute; reflexivity. Qed.

End ChunkerFacts.

(** ** Cache partition *)

Module CacheFacts.

Import Cache.

(** Unfolds the handlers down to the state they return. *)
Ltac run_handler :=
  unfold handleStore, handleCheck, handleGet, lookup_entry, internal_error,
    try_catch_st, storage_put_cache, storage_setAlarm, lift, modify, read,
    set_cache, mbind, stateful_bind, mret, stateful_ret;
  simpl.

Definition store_request {V} (key : string) (value : V) (ttl : option Z)
  : Request V :=
  {| method := "POST"; pathname := "/store";
     json := Returns {| url := Some key; body_result := Some value;
                        body_ttlMinutes := ttl; id := None |} |}.

Definition check_request {V} (key : string) : Request V :=
  {| method := "POST"; pathname := "/check";
     json := Returns {| url := Some key; body_result := None;
                        body_ttlMinutes := None; id := None |} |}.

Lemma eqb_empty_false (key : string) : key ≠ "" → String.eqb key "" = false.
Proof. intros H. by apply String.eqb_neq. Qed.

(** The entry that an accepted store request puts under its key, whatever
    the storage does afterwards: [this.cache.set] comes first. *)
Lemma handleStore_entry {V} (truthy_result : V → bool) (st : PolicyCache V)
    (key : string) (value : V) (ttl : option Z) (now now' : Z)
    (faults : StorageFaults) :
  key ≠ "" → truthy_result value = true →
  cache (handleStore truthy_result (store_request key value ttl)
           now now' faults st).1 !! key =
    Some {| result := value; timestamp := now';
            expiresAt := now + default 30 ttl * 60 * 1000;
            ttlMinutes := default 30 ttl |}.
Proof.
  intros Hkey%eqb_empty_false Hvalue. run_handler. rewrite Hkey, Hvalue. simpl.
  destruct (put_fault faults); simpl; [by rewrite lookup_insert_eq|].
  destruct (setAlarm_fault faults); simpl; by rewrite lookup_insert_eq.
Qed.

Lemma handleStore_accepts {V} (truthy_result : V → bool) (st : PolicyCache V)
    (key : string) (value : V) (ttl : option Z) (now now' : Z) :
  key ≠ "" → truthy_result value = true →
  (handleStore truthy_result (store_request key value ttl)
     now now' no_faults st).2 = Returns {| status := 200; body := SuccessJson |}.
Proof.
  intros Hkey%eqb_empty_false Hvalue. run_handler. by rewrite Hkey, Hvalue.
Qed.

(** [handleCheck] answers from the in-memory map and leaves the object as it
    is. *)
Lemma handleCheck_entry {V} (st : PolicyCache V) (key : string)
    (entry : CacheEntry V) (now : Z) :
  key ≠ "" → cache st !! key = Some entry →
  handleCheck (check_request key) now st =
    (st, Returns (if bool_decide (now < expiresAt entry)
                  then {| status := 200;
                          body := EntryJson (result entry) (timestamp entry)
                                    (expiresAt entry) |}
                  else {| status := 404; body := Text "Not found" |})).
Proof.
  intros Hkey%eqb_empty_false Hentry. run_handler. rewrite Hkey, Hentry.
  by destruct (bool_decide _).
Qed.

(** C4.  After a store of [(key, value, ttl)] with a positive [ttl] that the
    handler accepts, a check of [key] made at once, and more generally at
    any time strictly before [expiresAt], answers 200 with exactly [value],
    the stored [timestamp] and [expiresAt]; a check at or after [expiresAt]
    answers 404.  No alarm runs between the store and the check: the
    expired entry is still in the map. *)
Theorem store_then_check_roundtrip {V} (truthy_result : V → bool)
    (st : PolicyCache V) (key : string) (value : V) (ttl now now' : Z) :
  key ≠ "" → truthy_result value = true → 0 < ttl →
  let expiry := now + ttl * 60 * 1000 in
  let hit := {| status := 200; body := EntryJson value now' expiry |} in
  let miss := {| status := 404; body := Text "Not found" |} in
  ∃ st1,
    handleStore truthy_result (store_request key value (Some ttl))
      now now' no_faults st =
      (st1, Returns {| status := 200; body := SuccessJson |}) ∧
    handleCheck (check_request key) now st1 = (st1, Returns hit) ∧
    (∀ t, t < expiry → handleCheck (check_request key) t st1 = (st1, Returns hit)) ∧
    (∀ t, expiry ≤ t → handleCheck (check_request key) t st1 = (st1, Returns miss)) ∧
    is_Some (cache st1 !! key).
Proof.
  intros Hkey Hvalue Hpositive expiry hit miss.
  pose proof (handleStore_entry truthy_result st key value (Some ttl)
                now now' no_faults Hkey Hvalue) as Hentry.
  pose proof (handleStore_accepts truthy_result st key value (Some ttl)
                now now' Hkey Hvalue) as Hok.
  destruct (handleStore _ _ _ _ _ _) as [st1 response]. simpl in *.
  exists st1. subst response. split; [done|].
  assert (∀ t, t < expiry →
            handleCheck (check_request key) t st1 = (st1, Returns hit)) as Hhit.
  { intros t Ht. rewrite (handleCheck_entry st1 key _ t Hkey Hentry). simpl.
    by rewrite bool_decide_eq_true_2. }
  split; [apply Hhit; unfold expiry; lia|]. split; [done|].
  split; [|by eexists]. intros t Ht.
  rewrite (handleCheck_entry st1 key _ t Hkey Hentry). simpl.
  by rewrite bool_decide_eq_false_2 by (unfold expiry in Ht; lia).
Qed.

Lemma store_then_check_roundtrip_witness :
  ∃ st1,
    handleStore (λ _ : string, true)
      (store_request "https://example.com/privacy" "analysis" (Some 30))
      1000 1000 no_faults newPolicyCache =
      (st1, Returns {| status := 200; body := SuccessJson |}) ∧
    handleCheck (check_request "https://example.com/privacy") 1000 st1 =
      (st1, Returns {| status := 200; body := EntryJson "analysis" 1000 1801000 |}) ∧
    handleCheck (check_request "https://example.com/privacy") 1801000 st1 =
      (st1, Returns {| status := 404; body := Text "Not found" |}).
Proof.
  destruct (store_then_check_roundtrip (λ _ : string, true) newPolicyCache
              "https://example.com/privacy" "analysis" 30 1000 1000)
    as (st1 & Hstore & Hnow & _ & Hlate & _);
    [discriminate | reflexivity | lia |].
  exists st1. split; [exact Hstore|]. split; [exact Hnow|].
  apply Hlate. lia.
Defined.

(** Two stores into a fresh partition: a policy cached for 10 minutes at
    time 0, then another cached for 30 minutes one second later. *)
Definition after_two_stores : PolicyCache string :=
  let st1 :=
    (handleStore (λ _, true)
       (store_request "https://a.example/privacy" "first" (Some 10))
       0 0 no_faults newPolicyCache).1 in
  (handleStore (λ _, true)
     (store_request "https://b.example/privacy" "second" (Some 30))
     1000 1000 no_faults st1).1.

(** C5, at the failing input.  After the second store both entries are live
    and the earliest [expiresAt] is 600000, that of the first entry, but the
    pending alarm is 1801000, the [expiresAt] of the entry just inserted:
    [handleStore] calls [setAlarm(expiresAt)], which replaces the alarm set
    for the first entry, where [alarm] computes the minimum over all
    entries. *)
Theorem store_schedules_alarm_for_new_entry_only :
  expiresAt <$> cache after_two_stores !! "https://a.example/privacy" = Some 600000 ∧
  expiresAt <$> cache after_two_stores !! "https://b.example/privacy" = Some 1801000 ∧
  nextExpiry (cache after_two_stores) = Some 600000 ∧
  alarmAt after_two_stores = Some 1801000.
Proof. repeat split; vm_compute; reflexivity. Qed.

(** C9 as stated fails: a store with [ttlMinutes = 0] is accepted and its
    entry has [expiresAt] equal to its [timestamp]. *)
Lemma zero_ttl_entry_not_after_creation :
  ∃ st1 entry,
    handleStore (λ _ : string, true)
      (store_request "https://example.com/privacy" "analysis" (Some 0))
      1000 1000 no_faults newPolicyCache =
      (st1, Returns {| status := 200; body := SuccessJson |}) ∧
    cache st1 !! "https://example.com/privacy" = Some entry ∧
    ¬ (timestamp entry < expiresAt entry).
Proof.
  eexists _, _. split; [reflexivity|]. split.
  - run_handler. apply lookup_insert_eq.
  - simpl. lia.
Qed.

(** Off the whole numbers: sixty thousand times [1e-10] is less than half
    the spacing of the doubles around the clock value, so the sum rounds
    back to the clock value. *)
Lemma tiny_ttl_sum_rounds_to_clock :
  PrimFloat.ltb PrimFloat.zero StoreDoubles.tiny_ttl = true ∧
  PrimFloat.eqb
    (StoreDoubles.expiresAt_double StoreDoubles.clock StoreDoubles.tiny_ttl)
    StoreDoubles.clock = true.
Proof. split; vm_compute; reflexivity. Qed.

(** C9, amended.  An accepted store request creates an entry with
    [expiresAt > timestamp] when [ttlMinutes] (30 when omitted) is a whole
    number of at least 1 and the two clock reads of the handler are less
    than a minute apart; when [ttlMinutes] is zero or a negative whole
    number the entry is created all the same, with [expiresAt ≤ timestamp].
    A positive [ttlMinutes] that is not a whole number can be too small to
    count: for [1e-10] at a clock value of 1700000000000 the sum that the
    handler computes on doubles is the clock value itself. *)
Theorem whole_ttl_entry_expires_after_creation {V} (truthy_result : V → bool)
    (st : PolicyCache V) (key : string) (value : V) (ttl : option Z)
    (now now' : Z) (faults : StorageFaults) :
  key ≠ "" → truthy_result value = true → now ≤ now' →
  (∃ entry,
     cache (handleStore truthy_result (store_request key value ttl)
              now now' faults st).1 !! key = Some entry ∧
     ttlMinutes entry = default 30 ttl ∧
     (1 ≤ ttlMinutes entry → now' - now < 60 * 1000 →
      timestamp entry < expiresAt entry) ∧
     (ttlMinutes entry ≤ 0 → expiresAt entry ≤ timestamp entry)) ∧
  PrimFloat.ltb PrimFloat.zero StoreDoubles.tiny_ttl = true ∧
  PrimFloat.eqb
    (StoreDoubles.expiresAt_double StoreDoubles.clock StoreDoubles.tiny_ttl)
    StoreDoubles.clock = true.
Proof.
  intros Hkey Hvalue Hclock. split; [|exact tiny_ttl_sum_rounds_to_clock].
  eexists. split.
  - by apply handleStore_entry.
  - simpl. repeat split; lia.
Qed.

Lemma whole_ttl_entry_expires_after_creation_witness :
  ∃ entry,
    cache (handleStore (λ _ : string, true)
             (store_request "https://example.com/privacy" "analysis" None)
             1000 1002 no_faults newPolicyCache).1
      !! "https://example.com/privacy" = Some entry ∧
    ttlMinutes entry = default 30 None ∧
    (1 ≤ ttlMinutes entry → 1002 - 1000 < 60 * 1000 →
     timestamp entry < expiresAt entry) ∧
    (ttlMinutes entry ≤ 0 → expiresAt entry ≤ timestamp entry).
Proof.
  apply (whole_ttl_entry_expires_after_creation (λ _ : string, true)
           newPolicyCache "https://example.com/privacy" "analysis" None
           1000 1002 no_faults); [discriminate | reflexivity | lia].
Defined.

End CacheFacts.

(** ** Rate limiter *)

Module RateLimitFacts.

Import RateLimit.
Local Open Scope list_scope.

Ltac run_check :=
  unfold checkRateLimit, lift, modify, read, mbind, stateful_bind, mret,
    stateful_ret;
  simpl.

Lemma or_default_nonzero (x : option Z) (d : Z) : d ≠ 0 → or_default x d ≠ 0.
Proof.
  intros Hd. unfold or_default. destruct x as [v|]; [|done].
  destruct (Z.eqb_spec v 0); done.
Qed.

Lemma maxRequests_nonzero (env : Env) : maxRequests env ≠ 0.
Proof. by apply or_default_nonzero. Qed.

Lemma valid_requests_all (now window : Z) (requests : list Z) :
  (∀ t, t ∈ requests → now - t < window) →
  valid_requests now window requests = requests.
Proof.
  unfold valid_requests. induction requests as [|t requests IH]; intros H; [done|].
  rewrite filter_cons, decide_True by (apply H; left).
  f_equal. apply IH. intros t' Ht'. apply H. by right.
Qed.

Lemma valid_requests_none (now window : Z) (requests : list Z) :
  (∀ t, t ∈ requests → window ≤ now - t) →
  valid_requests now window requests = [].
Proof.
  unfold valid_requests. induction requests as [|t requests IH]; intros H; [done|].
  rewrite filter_cons, decide_False by (specialize (H t ltac:(left)); lia).
  apply IH. intros t' Ht'. apply H. by right.
Qed.

(** The periodic clean-up keeps a window in which every request is recent. *)
Lemma cleanup_keeps_recent (now window : Z) (store : gmap string (list Z))
    (identifier : string) (requests : list Z) :
  requests ≠ [] → (∀ t, t ∈ requests → now - t < window) →
  store !! identifier = Some requests →
  cleanupRateLimitStore now window store !! identifier = Some requests.
Proof.
  intros Hne Hrecent Hlookup. unfold cleanupRateLimitStore.
  rewrite lookup_omap, Hlookup. simpl.
  rewrite valid_requests_all by done.
  rewrite bool_decide_eq_false_2; [done|]. by destruct requests.
Qed.

(** A call under the cap is admitted and recorded after the requests that
    are still inside the window. *)
Lemma checkRateLimit_admits (identifier : string) (env : Env) (now : Z)
    (lucky : bool) (store : gmap string (list Z)) :
  let recent := valid_requests now (windowMs env)
                  (default [] (store !! identifier)) in
  0 < windowMs env →
  Z.of_nat (length recent) < maxRequests env →
  ∃ store',
    checkRateLimit identifier env now lucky store = (store', Returns ()) ∧
    store' !! identifier = Some (recent ++ [now]).
Proof.
  intros recent Hwindow Hcap. run_check. fold recent.
  rewrite bool_decide_eq_false_2 by lia. simpl.
  destruct lucky; simpl; eexists; (split; [reflexivity|]).
  - apply cleanup_keeps_recent; [by destruct recent | | apply lookup_insert_eq].
    intros t [Ht| ->%list_elem_of_singleton]%elem_of_app; [|lia].
    by apply list_elem_of_filter in Ht as [? _].
  - apply lookup_insert_eq.
Qed.

(** A call at the cap throws, and the store it returns is the store it was
    given. *)
Lemma checkRateLimit_rejects (identifier : string) (env : Env) (now : Z)
    (lucky : bool) (store : gmap string (list Z)) :
  maxRequests env ≤
    Z.of_nat (length (valid_requests now (windowMs env)
                        (default [] (store !! identifier)))) →
  checkRateLimit identifier env now lucky store =
    (store, Throws (Error "Rate limit exceeded")).
Proof. intros Hcap. run_check. by rewrite bool_decide_eq_true_2. Qed.

Lemma admit_each_within (identifier : string) (env : Env)
    (calls : list (Z * bool)) :
  ∀ (store : gmap string (list Z)) (earlier : list Z),
    default [] (store !! identifier) = earlier →
    0 < windowMs env →
    (∀ a b, a ∈ earlier ++ calls.*1 → b ∈ earlier ++ calls.*1 →
            a - b < windowMs env) →
    Z.of_nat (length earlier + length calls) ≤ maxRequests env →
    ∃ store',
      admit_each identifier env calls store = (store', Returns ()) ∧
      default [] (store' !! identifier) = earlier ++ calls.*1 ∧
      (calls ≠ [] → is_Some (store' !! identifier)).
Proof.
  induction calls as [|[now lucky] calls IH]; intros store earlier Hstore Hw Hin Hcap.
  - exists store. simpl. rewrite app_nil_r. done.
  - simpl in *.
    assert (valid_requests now (windowMs env) (default [] (store !! identifier))
            = earlier) as Hrecent.
    { rewrite Hstore. apply valid_requests_all. intros t Ht.
      apply Hin; set_solver. }
    destruct (checkRateLimit_admits identifier env now lucky store Hw)
      as (store1 & Hcall & Hlookup); [rewrite Hrecent; lia|].
    rewrite Hrecent in Hlookup.
    destruct (IH store1 (earlier ++ [now])) as (store' & Hrest & Hfinal & _).
    + by rewrite Hlookup.
    + done.
    + intros a b. rewrite <- !app_assoc. simpl. apply Hin.
    + rewrite length_app. simpl. lia.
    + exists store'. unfold mbind, stateful_bind. rewrite Hcall, Hrest.
      rewrite <- app_assoc in Hfinal. simpl in Hfinal.
      split; [done|]. split; [done|]. intros _.
      destruct (store' !! identifier); [by eexists|].
      simpl in Hfinal. by destruct earlier.
Qed.

(** C8.  Starting without recorded requests for an identifier, [maxRequests]
    calls whose times all lie within one window of each other are admitted
    and recorded one after the other; one more call within that window
    throws the rate-limit error; and a call made when every recorded
    timestamp is at least [windowMs] old is admitted again. *)
Theorem rate_limit_boundary (identifier : string) (env : Env)
    (store : gmap string (list Z)) (times : list Z) (luck : list bool)
    (extra : Z) (extra_luck : bool) :
  default [] (store !! identifier) = [] →
  Z.of_nat (length times) = maxRequests env →
  length luck = length times →
  (∀ a b, a ∈ times ++ [extra] → b ∈ times ++ [extra] → a - b < windowMs env) →
  ∃ store',
    admit_each identifier env (zip times luck) store = (store', Returns ()) ∧
    store' !! identifier = Some times ∧
    checkRateLimit identifier env extra extra_luck store' =
      (store', Throws (Error "Rate limit exceeded")) ∧
    ∀ later later_luck,
      (∀ t, t ∈ times → windowMs env ≤ later - t) →
      ∃ store'',
        checkRateLimit identifier env later later_luck store' =
          (store'', Returns ()) ∧
        store'' !! identifier = Some [later].
Proof.
  intros Hempty Hcount Hluck Hwithin.
  assert (0 < windowMs env) as Hw.
  { specialize (Hwithin extra extra). rewrite Z.sub_diag in Hwithin.
    apply Hwithin; set_solver. }
  pose proof (maxRequests_nonzero env) as Hmax.
  assert ((zip times luck).*1 = times) as Hfst by (apply fst_zip; lia).
  destruct (admit_each_within identifier env (zip times luck) store [] Hempty Hw)
    as (store' & Hcalls & Hfinal & Hsome).
  { simpl. rewrite Hfst. intros a b Ha Hb. apply Hwithin; set_solver. }
  { simpl. rewrite length_zip_with. lia. }
  simpl in Hfinal. rewrite Hfst in Hfinal.
  assert (store' !! identifier = Some times) as Hlookup.
  { destruct Hsome as [recorded Hrecorded].
    - destruct times, luck; simpl in *; try done; lia.
    - rewrite Hrecorded in Hfinal |- *. simpl in Hfinal. by subst. }
  exists store'. split; [done|]. split; [done|]. split.
  - apply checkRateLimit_rejects. rewrite Hlookup. simpl.
    rewrite valid_requests_all; [lia|].
    intros t Ht. apply Hwithin; set_solver.
  - intros later later_luck Hold.
    destruct (checkRateLimit_admits identifier env later later_luck store' Hw)
      as (store'' & Hcall & Hnew).
    + rewrite Hlookup. simpl. rewrite valid_requests_none by done. simpl. lia.
    + exists store''. split; [done|].
      rewrite Hlookup in Hnew. simpl in Hnew.
      by rewrite valid_requests_none in Hnew.
Qed.

Definition two_per_minute : Env :=
  {| RATE_LIMIT_WINDOW_MINUTES := None;
     RATE_LIMIT_REQUESTS_PER_MINUTE := Some 2;
     ANALYSIS_CACHE_TTL_MINUTES := None |}.

Lemma rate_limit_boundary_witness :
  ∃ store',
    admit_each "203.0.113.7" two_per_minute (zip [0; 1000] [false; true]) ∅ =
      (store', Returns ()) ∧
    store' !! "203.0.113.7" = Some [0; 1000] ∧
    checkRateLimit "203.0.113.7" two_per_minute 2000 false store' =
      (store', Throws (Error "Rate limit exceeded")) ∧
    ∀ later later_luck,
      (∀ t, t ∈ [0; 1000] → windowMs two_per_minute ≤ later - t) →
      ∃ store'',
        checkRateLimit "203.0.113.7" two_per_minute later later_luck store' =
          (store'', Returns ()) ∧
        store'' !! "203.0.113.7" = Some [later].
Proof.
  apply (rate_limit_boundary "203.0.113.7" two_per_minute ∅ [0; 1000]
           [false; true] 2000 false).
  - reflexivity.
  - reflexivity.
  - reflexivity.
  - intros a b Ha Hb. change (windowMs two_per_minute) with 60000.
    repeat (apply elem_of_cons in Ha as [->|Ha]);
      repeat (apply elem_of_cons in Hb as [->|Hb]);
      try lia; by apply elem_of_nil in Ha || by apply elem_of_nil in Hb.
Defined.

(** C10.  When [checkRateLimit] throws, the store it leaves is the store it
    found: the denied call records no timestamp and the pruned list is not
    written back, so the same call is denied again and the identifier's
    window is neither extended nor refreshed. *)
Theorem denied_call_leaves_store_unchanged (identifier : string) (env : Env)
    (now : Z) (lucky : bool) (store store' : gmap string (list Z)) (e : JSError) :
  checkRateLimit identifier env now lucky store = (store', Throws e) →
  store' = store ∧ e = Error "Rate limit exceeded" ∧
  maxRequests env ≤
    Z.of_nat (length (valid_requests now (windowMs env)
                        (default [] (store !! identifier)))).
Proof.
  run_check. case_bool_decide as Hcap; simpl.
  - by intros [= <- <-].
  - destruct lucky; simpl; discriminate.
Qed.

Lemma denied_call_leaves_store_unchanged_witness :
  checkRateLimit "203.0.113.7" two_per_minute 2000 false
    {[ "203.0.113.7" := [0; 1000] ]} =
    ({[ "203.0.113.7" := [0; 1000] ]}, Throws (Error "Rate limit exceeded")) ∧
  ({[ "203.0.113.7" := [0; 1000] ]} : gmap string (list Z)) =
    {[ "203.0.113.7" := [0; 1000] ]} ∧
  Error "Rate limit exceeded" = Error "Rate limit exceeded" ∧
  maxRequests two_per_minute ≤
    Z.of_nat (length (valid_requests 2000 (windowMs two_per_minute)
                        (default [] (({[ "203.0.113.7" := [0; 1000] ]}
                                       : gmap string (list Z)) !! "203.0.113.7")))).
Proof.
  assert (checkRateLimit "203.0.113.7" two_per_minute 2000 false
            {[ "203.0.113.7" := [0; 1000] ]} =
          ({[ "203.0.113.7" := [0; 1000] ]}, Throws (Error "Rate limit exceeded")))
    as Hcall by (vm_compute; reflexivity).
  split; [exact Hcall|].
  exact (denied_call_leaves_store_unchanged _ _ _ _ _ _ _ Hcall).
Defined.

End RateLimitFacts.

(** ** Inference fallback and aggregation *)

Module AnalyzerFacts.

Import ScorerFacts.
Local Open Scope list_scope.

(** The inference call threw, or its text is not JSON. *)
Definition degraded (reply : AIReply) : bool :=
  match reply with
  | RunFails _ | Unparsable => true
  | Parsed _ => false
  end.

Definition is_array (v : JValue) : bool :=
  match v with JArr _ => true | _ => false end.

Definition is_object (v : JValue) : bool :=
  match v with JObj _ => true | _ => false end.

(** The shape that the prompt of [analyzeChunk] asks for. *)
Definition expected_shape (v : JValue) : bool :=
  match v with
  | JObj props =>
      is_array (obj_get props "keyPoints") && is_array (obj_get props "redFlags")
      && is_object (obj_get props "compliance")
      && is_array (obj_get props "userRights")
  | _ => false
  end.

(** A value with a callable [slice]. *)
Definition sliceable (v : JValue) : bool :=
  match v with JArr _ | JStr _ => true | _ => false end.

(** The replies to the summary call after which [recommendations] can be
    sliced: a failed call (static fallback), [null] (the [catch] of
    [performAIAnalysis]), or an object whose [recommendations] is an array
    or a string. *)
Definition summary_ok (reply : AIReply) : bool :=
  match reply with
  | RunFails _ | Unparsable => true
  | Parsed JNull | Parsed JUndefined => true
  | Parsed (JObj props) => sliceable (obj_get props "recommendations")
  | Parsed _ => false
  end.

Ltac run_analysis :=
  unfold chunk_iteration, aggregate, summarize, limit_arrays, try_catch_st,
    lift, modify, read, mbind, stateful_bind, mret, stateful_ret;
  simpl.

Lemma analyzeChunk_returns (reply : AIReply) (type : JValue) :
  to_primitive_throws type = false →
  analyzeChunk reply type = Returns (finding_of reply).
Proof. intros Htype. unfold analyzeChunk, interpolate. simpl. by rewrite Htype. Qed.

Lemma finding_of_degraded (reply : AIReply) :
  degraded reply = true → finding_of reply = placeholderFinding.
Proof. by destruct reply. Qed.

(** The scorer can read placeholders and findings in the expected shape. *)
Lemma finding_of_readable gt0 (reply : AIReply) :
  degraded reply = true ∨ (∃ v, reply = Parsed v ∧ expected_shape v = true) →
  readable gt0 (finding_of reply).
Proof.
  intros [Hdegraded|(v & -> & Hshape)].
  - rewrite finding_of_degraded by done. by eapply array_rights_readable.
  - simpl. destruct v as [| |b|z|s|items|props]; try discriminate Hshape.
    simpl in Hshape. apply andb_prop in Hshape as [_ Hrights].
    destruct (obj_get props "userRights") as [| |b|z|s|items|props'] eqn:Heq;
      try discriminate Hrights.
    by eapply array_rights_readable.
Qed.

(** One iteration never throws and always appends the finding of its chunk
    to [sections], whatever the finding is. *)
Lemma chunk_iteration_sections (reply : AIReply) (type : JValue) (a : Analysis) :
  to_primitive_throws type = false →
  ∃ a', chunk_iteration reply type a = (a', Returns ()) ∧
        sections a' = sections a ++ [finding_of reply].
Proof.
  intros Htype. unfold chunk_iteration.
  unfold try_catch_st, mbind at 1, stateful_bind at 1, lift at 1.
  rewrite analyzeChunk_returns by done.
  run_analysis. generalize (finding_of reply) as finding. intros finding.
  destruct (get_field finding "keyPoints") as [points|e]; simpl; [|eauto].
  destruct (truthy points); simpl.
  - destruct (spread points) as [items|e]; simpl; [|eauto].
    destruct (get_field finding "redFlags") as [flags|e]; simpl; [|eauto].
    destruct (truthy flags); simpl.
    + destruct (spread flags) as [items'|e]; simpl; [|eauto].
      destruct (get_field finding "compliance") as [tags|e]; simpl; [|eauto].
      destruct (truthy tags); simpl; eauto.
    + destruct (get_field finding "compliance") as [tags|e]; simpl; [|eauto].
      destruct (truthy tags); simpl; eauto.
  - destruct (get_field finding "redFlags") as [flags|e]; simpl; [|eauto].
    destruct (truthy flags); simpl.
    + destruct (spread flags) as [items'|e]; simpl; [|eauto].
      destruct (get_field finding "compliance") as [tags|e]; simpl; [|eauto].
      destruct (truthy tags); simpl; eauto.
    + destruct (get_field finding "compliance") as [tags|e]; simpl; [|eauto].
      destruct (truthy tags); simpl; eauto.
Qed.

(** The loop gives every sampled chunk its section, in order: a chunk whose
    finding is a placeholder does not stop the chunks after it. *)
Lemma for_each_chunk_sections (ai : nat → AIReply) (type : JValue)
    (sampleChunks : list string) :
  to_primitive_throws type = false →
  ∀ (i : nat) (a : Analysis),
    ∃ a', for_each_chunk ai type i sampleChunks a = (a', Returns ()) ∧
          sections a' =
            sections a ++ ((λ j, finding_of (ai j)) <$> seq i (length sampleChunks)).
Proof.
  intros Htype. induction sampleChunks as [|chunk rest IH]; intros i a; simpl.
  - exists a. by rewrite app_nil_r.
  - destruct (chunk_iteration_sections (ai i) type a Htype)
      as (a1 & Hstep & Hsections).
    destruct (IH (S i) a1) as (a' & Hrest & Hfinal).
    exists a'. unfold mbind, stateful_bind. rewrite Hstep, Hrest.
    split; [done|]. by rewrite Hfinal, Hsections, <- app_assoc.
Qed.

(** The summary step never throws and leaves [sections] alone; after a
    reply that is [summary_ok] the recommendations can be sliced. *)
Lemma summarize_sections (reply : AIReply) (type : JValue) (a : Analysis) :
  ∃ a', summarize reply type a = (a', Returns ()) ∧
        sections a' = sections a ∧
        (summary_ok reply = true → sliceable (recommendations a') = true).
Proof.
  run_analysis. unfold generateSummaryAnalysis, interpolate.
  destruct (existsb _ _); simpl; [eauto|].
  destruct reply as [e| |[| |b|z|s|items|props]]; simpl; eauto.
Qed.

Lemma limit_arrays_sections (a : Analysis) :
  sliceable (recommendations a) = true →
  ∃ a', limit_arrays a = (a', Returns ()) ∧ sections a' = sections a.
Proof.
  run_analysis. destruct (recommendations a); try discriminate; simpl; eauto.
Qed.

Lemma performAIAnalysis_returns (ai : nat → AIReply) (chunks : list string)
    (type : JValue) :
  to_primitive_throws type = false →
  summary_ok (ai (length (take 3 chunks))) = true →
  ∃ a, performAIAnalysis ai chunks type = Returns a ∧
       sections a = (λ i, finding_of (ai i)) <$> seq 0 (length (take 3 chunks)).
Proof.
  intros Htype Hsummary. unfold performAIAnalysis.
  destruct (for_each_chunk_sections ai type (take 3 chunks) Htype 0 initialAnalysis)
    as (a1 & Hloop & Hsections1).
  destruct (summarize_sections (ai (length (take 3 chunks))) type a1)
    as (a2 & Hsum & Hsections2 & Hslice).
  destruct (limit_arrays_sections a2 (Hslice Hsummary)) as (a3 & Hlimit & Hsections3).
  exists a3. unfold mbind, stateful_bind. rewrite Hloop, Hsum, Hlimit.
  split; [done|]. by rewrite Hsections3, Hsections2, Hsections1.
Qed.

(** A reply that is valid JSON, though not in the shape asked for. *)
Definition off_shape_reply : AIReply :=
  Parsed (JObj [("summary", JStr "The policy looks fine")]).

(** C7 as stated fails: output that parses as JSON but not in the expected
    shape is returned as it is, not replaced by the placeholder. *)
Lemma off_shape_output_is_not_replaced :
  ¬ (∀ reply,
       (degraded reply = true ∨
        ∃ v, reply = Parsed v ∧ expected_shape v = false) →
       analyzeChunk reply (JStr "privacy") = Returns placeholderFinding).
Proof.
  intros H. specialize (H off_shape_reply). discriminate H.
  right. by eexists.
Qed.

(** C7, amended.  When the inference call of a chunk throws or its output is
    not JSON, [analyzeChunk] returns the placeholder finding, and the loop of
    [performAIAnalysis] goes on: every sampled chunk gets its section.  Then
    [analyzePolicy] returns a result, provided the page was fetched, the
    document type converts to a string (a string does), the output of every
    other sampled chunk has the expected shape, and the summary call fails,
    answers [null], or answers an object whose recommendations are an array
    or a string. *)
Theorem degraded_chunk_yields_placeholder_and_analysis_continues
    (gt0 : JValue → bool) (fetchPolicyContent : string → outcome string)
    (preprocessContent : string → JValue → string) (ai : nat → AIReply)
    (now : Z) (url content : string) (type : JValue) :
  let chunks :=
    chunkContent (preprocessContent content type) defaultMaxChunkSize in
  let sampled := length (take 3 chunks) in
  fetchPolicyContent url = Returns content →
  to_primitive_throws type = false →
  (∀ i, (i < sampled)%nat →
     degraded (ai i) = true ∨ ∃ v, ai i = Parsed v ∧ expected_shape v = true) →
  summary_ok (ai sampled) = true →
  (∀ reply, degraded reply = true →
     analyzeChunk reply type = Returns placeholderFinding) ∧
  ∃ result,
    analyzePolicy gt0 fetchPolicyContent preprocessContent ai now url type =
      Returns result ∧
    length (sections (analysis result)) = sampled ∧
    (∀ i, (i < sampled)%nat →
       sections (analysis result) !! i = Some (finding_of (ai i))) ∧
    (∀ i, (i < sampled)%nat → degraded (ai i) = true →
       sections (analysis result) !! i = Some placeholderFinding).
Proof.
  intros chunks sampled Hfetch Htype Hchunks Hsummary. split.
  { intros reply Hdegraded.
    by rewrite analyzeChunk_returns, finding_of_degraded. }
  destruct (performAIAnalysis_returns ai chunks type Htype Hsummary)
    as (a & Hrun & Hsections).
  fold sampled in Hsections.
  assert (∀ i, (i < sampled)%nat → sections a !! i = Some (finding_of (ai i)))
    as Hlookup.
  { intros i Hi. rewrite Hsections, list_lookup_fmap, lookup_seq_lt by done.
    done. }
  destruct (calculateRiskScores_returns gt0 a) as [ra Hscore].
  { rewrite Hsections. apply Forall_fmap, Forall_seq. intros i Hi. simpl.
    apply finding_of_readable, Hchunks. lia. }
  eexists. unfold analyzePolicy. rewrite Hfetch. simpl.
  fold chunks. rewrite Hrun. simpl. rewrite Hscore. simpl.
  split; [reflexivity|]. simpl. split; [|split].
  - by rewrite Hsections, length_fmap, length_seq.
  - done.
  - intros i Hi Hdeg. rewrite Hlookup by done. by rewrite finding_of_degraded.
Qed.

(** A page of two sentences of 1500 characters: two chunks. *)
Definition two_chunk_page : string :=
  ChunkerFacts.copies 1500 "a" ++ "." ++ ChunkerFacts.copies 1500 "b".

(** The first chunk's output is not JSON, the second chunk's is a finding,
    the summary call fails. *)
Definition first_chunk_unparsable (i : nat) : AIReply :=
  match i with
  | 0%nat => Unparsable
  | 1%nat => Parsed flagged_finding
  | _ => RunFails (Error "inference unavailable")
  end.

Lemma two_chunk_page_sampled :
  length (take 3 (chunkContent two_chunk_page defaultMaxChunkSize)) = 2%nat.
Proof. vm_compute. reflexivity. Qed.

Lemma degraded_chunk_yields_placeholder_and_analysis_continues_witness :
  ∃ result,
    analyzePolicy (λ _, false) (λ _, Returns two_chunk_page) (λ content _, content)
      first_chunk_unparsable 1500 "https://example.com/privacy" (JStr "privacy") =
      Returns result ∧
    sections (analysis result) = [placeholderFinding; flagged_finding].
Proof.
  destruct (degraded_chunk_yields_placeholder_and_analysis_continues
              (λ _, false) (λ _, Returns two_chunk_page) (λ content _, content)
              first_chunk_unparsable 1500 "https://example.com/privacy"
              two_chunk_page (JStr "privacy"))
    as (_ & result & Hrun & Hlength & Hsections & _).
  - reflexivity.
  - reflexivity.
  - cbv beta. rewrite two_chunk_page_sampled. intros i Hi.
    destruct i as [|[|i]]; [by left | right | lia].
    eexists. split; reflexivity.
  - cbv beta. rewrite two_chunk_page_sampled. reflexivity.
  - cbv beta in Hlength, Hsections. rewrite two_chunk_page_sampled in Hlength, Hsections.
    exists result. split; [exact Hrun|].
    pose proof (Hsections 0%nat ltac:(lia)) as H0.
    pose proof (Hsections 1%nat ltac:(lia)) as H1.
    destruct (sections (analysis result)) as [|s0 [|s1 [|s2 rest]]];
      try discriminate Hlength.
    by injection H0 as ->; injection H1 as ->.
Defined.

(** The case left out of C7: output that parses to [null] is pushed to
    [sections] as it is, the scorer then reads [userRights] of [null], and
    [analyzePolicy] throws. *)
Lemma null_output_fails_analysis :
  analyzePolicy (λ _, false) (λ _, Returns two_chunk_page) (λ content _, content)
    (λ i, match i with 0%nat => Parsed JNull | _ => first_chunk_unparsable i end)
    1500 "https://example.com/privacy" (JStr "privacy") =
    Throws (Wrapped "Analysis failed: " TypeError).
Proof. vm_compute. reflexivity. Qed.

End AnalyzerFacts.

(** ** The analyze handler and the cache store *)

Module AnalyzeFacts.

Import RateLimit Analyze.

Section Partition.

Context {V : Type} (truthy_result : V → bool).

(** A handler of the durable object answers without throwing and leaves
    the [initialized] flag as it is. *)
Definition answers (handler : stateful (Cache.PolicyCache V) (Cache.Response V))
  : Prop :=
  ∀ st, ∃ st' response,
    handler st = (st', Returns response) ∧
    Cache.initialized st' = Cache.initialized st.

Ltac run_cache :=
  unfold Cache.handleStore, Cache.handleCheck, Cache.handleGet,
    Cache.handleStats, Cache.handleCleanup, Cache.lookup_entry,
    Cache.internal_error, Cache.storage_put_cache, Cache.storage_setAlarm,
    Cache.set_cache, try_catch_st, lift, modify, read, mbind, stateful_bind,
    mret, stateful_ret;
  simpl.

Lemma handleStore_answers request now now' faults :
  answers (Cache.handleStore truthy_result request now now' faults).
Proof.
  intros st. run_cache.
  destruct (Cache.json request) as [fields|e]; simpl; [|eauto].
  destruct (_ || _); simpl; [eauto|].
  destruct (Cache.url fields), (Cache.body_result fields); simpl; eauto.
  destruct (Cache.put_fault faults); simpl; [eauto|].
  destruct (Cache.setAlarm_fault faults); simpl; eauto.
Qed.

Lemma lookup_answers (request : Cache.Request V) key now :
  answers (Cache.lookup_entry key now).
Proof.
  intros st. run_cache. destruct (Cache.cache st !! key) as [entry|]; simpl; eauto.
  destruct (bool_decide _); simpl; eauto.
Qed.

Lemma handleCheck_answers (request : Cache.Request V) now :
  answers (Cache.handleCheck request now).
Proof.
  intros st. run_cache.
  destruct (Cache.json request) as [fields|e]; simpl; [|eauto].
  destruct (Cache.url fields) as [key|]; simpl; [|eauto].
  destruct (String.eqb key ""); simpl; [eauto|].
  destruct (Cache.cache st !! key) as [entry|]; simpl; eauto.
  destruct (bool_decide _); simpl; eauto.
Qed.

Lemma handleGet_answers (request : Cache.Request V) now :
  answers (Cache.handleGet request now).
Proof.
  intros st. run_cache.
  destruct (Cache.json request) as [fields|e]; simpl; [|eauto].
  destruct (Cache.url fields) as [key|]; simpl; [|eauto].
  destruct (String.eqb key ""); simpl; [eauto|].
  destruct (Cache.cache st !! key) as [entry|]; simpl; eauto.
  destruct (bool_decide _); simpl; eauto.
Qed.

Lemma handleStats_answers now : answers (Cache.handleStats (V := V) now).
Proof. intros st. run_cache. eauto. Qed.

Lemma handleCleanup_answers (request : Cache.Request V) now faults :
  answers (Cache.handleCleanup request now faults).
Proof.
  intros st. run_cache.
  destruct (Cache.json request) as [fields|e]; simpl; [|eauto].
  destruct (Cache.body_ttlMinutes fields); simpl;
    destruct (Cache.put_fault faults); simpl; eauto.
Qed.

(** The routing of [fetch], after [initialize]. *)
Definition route (request : Cache.Request V) (now now' : Z)
    (faults : Cache.StorageFaults)
  : stateful (Cache.PolicyCache V) (Cache.Response V) :=
  if String.eqb (Cache.method request) "POST"
     && Cache.ends_with (Cache.pathname request) "/store"
  then Cache.handleStore truthy_result request now now' faults
  else if String.eqb (Cache.method request) "POST"
          && Cache.ends_with (Cache.pathname request) "/check"
  then Cache.handleCheck request now
  else if String.eqb (Cache.method request) "POST"
          && Cache.ends_with (Cache.pathname request) "/get"
  then Cache.handleGet request now
  else if String.eqb (Cache.method request) "GET"
          && Cache.ends_with (Cache.pathname request) "/stats"
  then Cache.handleStats now
  else if String.eqb (Cache.method request) "POST"
          && Cache.ends_with (Cache.pathname request) "/cleanup"
  then Cache.handleCleanup request now faults
  else mret {| Cache.status := 405; Cache.body := Cache.Text "Method not allowed" |}.

Lemma fetch_route (request : Cache.Request V) now now' faults st :
  Cache.fetch truthy_result request now now' faults st =
    match Cache.initialize faults st with
    | (st1, Returns _) => route request now now' faults st1
    | (st1, Throws e) => (st1, Throws e)
    end.
Proof. reflexivity. Qed.

Lemma route_answers (request : Cache.Request V) now now' faults :
  answers (route request now now' faults).
Proof.
  unfold route.
  repeat match goal with
  | |- context [if ?c then _ else _] => destruct c
  end;
  eauto using handleStore_answers, handleCheck_answers, handleGet_answers,
    handleStats_answers, handleCleanup_answers.
  intros st. eexists _, _. split; reflexivity.
Qed.

Lemma initialize_ready (faults : Cache.StorageFaults)
    (st st1 : Cache.PolicyCache V) :
  Cache.initialize faults st = (st1, Returns ()) →
  Cache.initialized st1 = true.
Proof.
  unfold Cache.initialize, Cache.storage_get, Cache.set_cache, read, modify,
    mbind, stateful_bind, mret, stateful_ret.
  destruct (Cache.initialized st) eqn:Hready; simpl.
  - by intros [= <-].
  - destruct (Cache.get_fault faults); [discriminate|].
    destruct (Cache.stored st); simpl; by intros [= <-].
Qed.

Lemma initialize_again (faults : Cache.StorageFaults) (st : Cache.PolicyCache V) :
  Cache.initialized st = true →
  Cache.initialize faults st = (st, Returns ()).
Proof.
  intros Hready.
  unfold Cache.initialize, read, mbind, stateful_bind, mret, stateful_ret.
  by rewrite Hready.
Qed.

(** Once the object is initialized, [fetch] answers every request, whatever
    the storage does. *)
Lemma fetch_answers (request : Cache.Request V) now now' faults
    (st : Cache.PolicyCache V) :
  Cache.initialized st = true →
  ∃ st' response,
    Cache.fetch truthy_result request now now' faults st = (st', Returns response).
Proof.
  intros Hready. rewrite fetch_route, initialize_again by done.
  destruct (route_answers request now now' faults st) as (st' & r & Hroute & _).
  eauto.
Qed.

(** A call that [fetch] answered has initialized the object. *)
Lemma fetch_initializes (request : Cache.Request V) now now' faults
    (st st' : Cache.PolicyCache V) response :
  Cache.fetch truthy_result request now now' faults st = (st', Returns response) →
  Cache.initialized st' = true.
Proof.
  rewrite fetch_route.
  destruct (Cache.initialize faults st) as [st1 [[]|e]] eqn:Hinit; [|discriminate].
  apply initialize_ready in Hinit.
  destruct (route_answers request now now' faults st1) as (st2 & r & -> & Hsame).
  intros [= <- _]. by rewrite Hsame.
Qed.

End Partition.

(** C6, amended.  Take an analyze request that passes validation and
    admission, whose cache lookup is answered with a miss and whose analysis
    returns [result].  If the call that stores the result reaches the
    durable object, the handler answers 200 with [result], [success] true
    and [cached] false, whatever the store handler answers and whatever
    fails in its storage: it catches those errors and the handler does not
    read its answer.  If the store call itself throws, the [catch] of the
    handler answers 500 "Analysis failed". *)
Theorem store_failure_and_analyze_response (host : Host) (env : Env)
    (request : HttpRequest) (w w1 w2 : World) (props : list (string * JValue))
    (url href : string) (response : Cache.Response PolicyResult)
    (result : PolicyResult) :
  method request = "POST" →
  json request = Returns (JObj props) →
  obj_get props "url" = JStr url → url ≠ "" →
  parse_url host url = Returns href →
  on_rate (checkRateLimit (client_of request) env
             (at_admission (times host)) (lucky host)) w = (w1, Returns ()) →
  stub_fetch (check_call_fault host)
    (cache_request (sub_path request "/check") url None None)
    (at_check (times host)) (at_check (times host)) (check_faults host) w1 =
    (w2, Returns response) →
  Cache.status response ≠ 200 →
  analyzePolicy (to_number_gt0 host) (fetchPolicyContent host)
    (preprocessContent host) (ai host) (at_analysis (times host)) url
    (or_privacy (obj_get props "type")) = Returns result →
  (store_call_fault host = None →
   ∃ w3,
     handleAnalyze host env request w =
       (w3, Returns {| status := 200;
                       body := ResultJson (Some result) false
                                 (Some (at_response (times host))) |})) ∧
  (∀ e, store_call_fault host = Some e →
     handleAnalyze host env request w =
       (w2, Returns {| status := 500;
                       body := FailureJson "Analysis failed" (Some e) |})).
Proof.
  intros Hmethod Hjson Hurl Hnonempty%CacheFacts.eqb_empty_false Hparse
    Hrate Hcheck Hmiss%Z.eqb_neq Hanalysis.
  assert (
    handleAnalyze host env request w =
      match stub_fetch (store_call_fault host)
              (cache_request (sub_path request "/store") url (Some result)
                 (Some (or_default (ANALYSIS_CACHE_TTL_MINUTES env) 30)))
              (at_store (times host)) (at_store' (times host))
              (store_faults host) w2 with
      | (w3, Returns _) =>
          (w3, Returns {| status := 200;
                          body := ResultJson (Some result) false
                                    (Some (at_response (times host))) |})
      | (w3, Throws e) =>
          (w3, Returns {| status := 500;
                          body := FailureJson "Analysis failed" (Some e) |})
      end) as Hrun.
  { unfold handleAnalyze, try_catch_st.
    rewrite Hmethod, Hjson. simpl.
    unfold mbind, stateful_bind, lift, mret, stateful_ret. simpl.
    rewrite Hurl. simpl. rewrite Hnonempty, Hparse. simpl.
    rewrite Hrate. simpl. rewrite Hcheck. simpl. rewrite Hmiss, Hanalysis.
    destruct (stub_fetch (store_call_fault host) _ _ _ _ w2) as [w3 [r|e]];
      reflexivity. }
  rewrite Hrun. split.
  - intros Hcall. rewrite Hcall. unfold stub_fetch in Hcheck |- *.
    destruct (check_call_fault host); [discriminate|].
    unfold on_cache in Hcheck |- *.
    destruct (Cache.fetch _ _ _ _ _ (policyCache w1)) as [pc2 r2] eqn:Hfetch.
    injection Hcheck as <- ->.
    apply fetch_initializes in Hfetch. simpl.
    destruct (fetch_answers (λ _, true)
                (cache_request (sub_path request "/store") url (Some result)
                   (Some (or_default (ANALYSIS_CACHE_TTL_MINUTES env) 30)))
                (at_store (times host)) (at_store' (times host))
                (store_faults host) pc2 Hfetch) as (pc3 & r3 & ->).
    eauto.
  - intros e Hcall. by rewrite Hcall.
Qed.

(** One request on a fresh worker: the page is fetched, the inference
    service is down (the analysis falls back to placeholders), and the cache
    is reached for the lookup. *)
Definition example_host (store_call : option JSError)
    (storage : Cache.StorageFaults) : Host :=
  {| times := {| at_admission := 1000; at_check := 1001; at_analysis := 1500;
                 at_store := 1600; at_store' := 1600; at_response := 1601 |};
     lucky := false;
     parse_url := λ url, Returns url;
     to_number_gt0 := λ _, false;
     fetchPolicyContent := λ _,
       Returns "We collect your e-mail address and share it with our partners";
     preprocessContent := λ content _, content;
     ai := λ _, RunFails (Error "inference unavailable");
     check_call_fault := None;
     check_faults := Cache.no_faults;
     store_call_fault := store_call;
     store_faults := storage |}.

Definition example_request : HttpRequest :=
  {| method := "POST"; pathname := "/api/analyze"; search := "";
     clientIP := Some "203.0.113.7";
     json := Returns (JObj [("url", JStr "https://example.com/privacy")]) |}.

Definition default_env : Env :=
  {| RATE_LIMIT_WINDOW_MINUTES := None;
     RATE_LIMIT_REQUESTS_PER_MINUTE := None;
     ANALYSIS_CACHE_TTL_MINUTES := None |}.

Definition fresh_world : World :=
  {| rateLimitStore := ∅; policyCache := Cache.newPolicyCache |}.

(** C6 as stated fails: validation, admission, cache lookup and analysis
    succeed, the store call throws, and the handler answers 500 with
    [success] false instead of the result it has computed. *)
Lemma store_call_throw_fails_request :
  let host :=
    example_host (Some (Error "Durable Object is overloaded")) Cache.no_faults in
  ∃ w1 w2 response result w3 answer,
    on_rate (checkRateLimit (client_of example_request) default_env
               (at_admission (times host)) (lucky host)) fresh_world =
      (w1, Returns ()) ∧
    stub_fetch (check_call_fault host)
      (cache_request (sub_path example_request "/check")
         "https://example.com/privacy" None None)
      (at_check (times host)) (at_check (times host)) (check_faults host) w1 =
      (w2, Returns response) ∧
    Cache.status response = 404 ∧
    analyzePolicy (to_number_gt0 host) (fetchPolicyContent host)
      (preprocessContent host) (ai host) (at_analysis (times host))
      "https://example.com/privacy" (JStr "privacy") = Returns result ∧
    handleAnalyze host default_env example_request fresh_world =
      (w3, Returns answer) ∧
    status answer = 500 ∧ success answer = false.
Proof.
  eexists _, _, _, _, _, _.
  split; [vm_compute; reflexivity|].
  split; [vm_compute; reflexivity|].
  split; [reflexivity|].
  split; [vm_compute; reflexivity|].
  split; [vm_compute; reflexivity|].
  split; reflexivity.
Qed.

Lemma store_failure_and_analyze_response_witness :
  let host :=
    example_host None
      {| Cache.get_fault := None;
         Cache.put_fault := Some (Error "storage unavailable");
         Cache.setAlarm_fault := None |} in
  ∃ result w3,
    handleAnalyze host default_env example_request fresh_world =
      (w3, Returns {| status := 200;
                      body := ResultJson (Some result) false (Some 1601) |}).
Proof.
  intros host.
  edestruct (store_failure_and_analyze_response host default_env example_request
               fresh_world) as [Hstored _].
  - reflexivity.
  - reflexivity.
  - reflexivity.
  - discriminate.
  - reflexivity.
  - vm_compute. reflexivity.
  - vm_compute. reflexivity.
  - vm_compute. discriminate.
  - vm_compute. reflexivity.
  - eexists. exact (Hstored eq_refl).
Defined.

End AnalyzeFacts.

(** * Further properties of the cache partition *)

Module CacheLife.

Import Cache.

Section WithValue.

Context {V : Type} (truthy_result : V → bool).

(** [new PolicyCache(state)] on the storage that a former instance of the
    object leaves behind: the in-memory map starts empty and is loaded by
    the first [fetch]. *)
Definition restart (st : PolicyCache V) : PolicyCache V :=
  {| cache := ∅; stored := stored st; alarmAt := alarmAt st;
     initialized := false |}.

Ltac run_cache :=
  unfold handleStore, handleCheck, handleGet, handleStats, handleCleanup, alarm,
    lookup_entry, internal_error, storage_put_cache, storage_setAlarm,
    storage_get, set_cache, try_catch_st, lift, modify, read, mbind,
    stateful_bind, mret, stateful_ret;
  simpl.

Lemma math_min_spec (xs : list Z) (m : Z) :
  math_min xs = Some m → m ∈ xs ∧ ∀ x, x ∈ xs → m ≤ x.
Proof.
  destruct xs as [|x rest]; [discriminate|]. intros [= <-]. simpl.
  induction rest as [|y rest [IHin IHle]]; simpl.
  - split; [left|]. intros z ->%list_elem_of_singleton. lia.
  - split.
    + destruct (Z.min_spec y (foldr Z.min x rest)) as [[_ ->]|[_ ->]].
      * right. left.
      * apply elem_of_cons in IHin as [->|?]; [left | right; by right].
    + intros z Hz. pose proof (Z.le_min_l y (foldr Z.min x rest)).
      pose proof (Z.le_min_r y (foldr Z.min x rest)).
      apply elem_of_cons in Hz as [->|Hz].
      * specialize (IHle x ltac:(left)). lia.
      * apply elem_of_cons in Hz as [->|Hz]; [lia|].
        specialize (IHle z ltac:(by right)). lia.
Qed.

(** [nextExpiry] is the expiry of some entry and no entry expires before. *)
Lemma nextExpiry_spec (m : gmap string (CacheEntry V)) (t : Z) :
  nextExpiry m = Some t →
  (∃ k e, m !! k = Some e ∧ expiresAt e = t) ∧
  (∀ k e, m !! k = Some e → t ≤ expiresAt e).
Proof.
  intros [Hin Hle]%math_min_spec. split.
  - apply list_elem_of_fmap in Hin as (e & -> & He).
    apply list_elem_of_fmap in He as ([k e'] & -> & Hke).
    apply elem_of_map_to_list in Hke. eauto.
  - intros k e Hke. apply Hle. apply list_elem_of_fmap. exists e. split; [done|].
    apply list_elem_of_fmap. exists (k, e). split; [done|].
    by apply elem_of_map_to_list.
Qed.

Lemma nextExpiry_None (m : gmap string (CacheEntry V)) :
  nextExpiry m = None ↔ m = ∅.
Proof.
  unfold nextExpiry. rewrite <- map_to_list_empty_iff.
  destruct (map_to_list m) as [|kv rest]; simpl; split; done.
Qed.

(** What [alarm] leaves when the storage works. *)
Lemma alarm_no_faults (st : PolicyCache V) (now : Z) :
  let kept := filter (λ kv, ¬ (expiresAt kv.2 ≤ now)) (cache st) in
  alarm now no_faults st =
    ({| cache := kept;
        stored := if bool_decide (0 < size (cache st) - size kept)%nat
                  then Some kept else stored st;
        alarmAt := match nextExpiry kept with
                   | Some t => Some t
                   | None => alarmAt st
                   end;
        initialized := initialized st |},
     Returns ()).
Proof.
  intros kept. run_cache. fold kept.
  destruct (bool_decide _); simpl; destruct (nextExpiry kept); reflexivity.
Qed.

(** The scheduled wake-up removes exactly the entries whose [expiresAt] has
    passed; if entries remain, the next wake-up is set to the earliest
    [expiresAt] among them, which lies in the future; if none remains, the
    alarm is left as it was. *)
Theorem alarm_evicts_expired_and_reschedules (st : PolicyCache V) (now : Z) :
  ∃ st',
    alarm now no_faults st = (st', Returns ()) ∧
    (∀ k e, cache st' !! k = Some e ↔ cache st !! k = Some e ∧ now < expiresAt e) ∧
    (cache st' = ∅ → alarmAt st' = alarmAt st) ∧
    (cache st' ≠ ∅ →
     ∃ t k e,
       alarmAt st' = Some t ∧ now < t ∧
       cache st' !! k = Some e ∧ expiresAt e = t ∧
       ∀ k' e', cache st' !! k' = Some e' → t ≤ expiresAt e').
Proof.
  eexists. split; [apply alarm_no_faults|]. simpl.
  set (kept := filter _ (cache st)).
  assert (∀ k e, kept !! k = Some e ↔ cache st !! k = Some e ∧ now < expiresAt e)
    as Hkept.
  { intros k e. unfold kept. rewrite map_lookup_filter_Some. simpl.
    split; intros [? ?]; split; (done || lia). }
  split; [done|]. split.
  - intros ->%nextExpiry_None. done.
  - intros Hne. destruct (nextExpiry kept) as [t|] eqn:Hnext.
    + destruct (nextExpiry_spec kept t Hnext) as [(k & e & Hke & Ht) Hle].
      exists t, k, e. repeat split; try done.
      apply Hkept in Hke as [_ ?]. lia.
    + by apply nextExpiry_None in Hnext.
Qed.

(** The wake-up writes the map to the storage only when it has removed
    something. *)
Theorem alarm_persists_only_after_removal (st : PolicyCache V) (now : Z) :
  let st' := (alarm now no_faults st).1 in
  (cache st' = cache st ∧ stored st' = stored st) ∨
  (cache st' ≠ cache st ∧ stored st' = Some (cache st')).
Proof.
  rewrite alarm_no_faults. simpl. set (kept := filter _ (cache st)).
  assert (kept ⊆ cache st) as Hsub by apply map_filter_subseteq.
  pose proof (map_subseteq_size _ _ Hsub) as Hsize.
  case_bool_decide as Hremoved.
  - right. split; [|done]. intros Heq. rewrite Heq in Hremoved. lia.
  - left. split; [|done]. apply map_subseteq_size_eq; [done|lia].
Qed.

(** A wake-up that finds a restarted object does nothing: [alarm] does not
    load the stored entries, so none is evicted and no next alarm is set. *)
Theorem alarm_after_restart_does_nothing (st : PolicyCache V) (now : Z)
    (faults : StorageFaults) :
  alarm now faults (restart st) = (restart st, Returns ()).
Proof.
  run_cache. rewrite map_filter_empty. rewrite map_size_empty. simpl.
  assert (nextExpiry (∅ : gmap string (CacheEntry V)) = None) as ->
    by by apply nextExpiry_None.
  reflexivity.
Qed.

(** The bulk sweep keeps exactly the entries created at or after the cutoff
    [now - ttlMinutes * 60000], whatever their [expiresAt], writes the kept
    entries to the storage and reports how many it removed and kept. *)
Theorem cleanup_keeps_entries_created_after_cutoff (st : PolicyCache V)
    (request : Request V) (fields : RequestBody V) (maxAge now : Z) :
  json request = Returns fields →
  body_ttlMinutes fields = Some maxAge →
  ∃ st' removed remaining,
    handleCleanup request now no_faults st =
      (st', Returns {| status := 200; body := CleanupJson removed remaining |}) ∧
    (∀ k e, cache st' !! k = Some e ↔
            cache st !! k = Some e ∧ now - maxAge * 60 * 1000 ≤ timestamp e) ∧
    stored st' = Some (cache st') ∧
    remaining = size (cache st') ∧
    (removed + remaining)%nat = size (cache st).
Proof.
  intros Hjson Hage. run_cache. rewrite Hjson. simpl. rewrite Hage. simpl.
  set (kept := filter _ (cache st)).
  eexists _, _, _. split; [reflexivity|]. simpl. split; [|split; [done|split; [done|]]].
  - intros k e. unfold kept. rewrite map_lookup_filter_Some. simpl.
    split; intros [? ?]; split; (done || lia).
  - assert (kept ⊆ cache st) as Hsub by apply map_filter_subseteq.
    pose proof (map_subseteq_size _ _ Hsub). lia.
Qed.

(** A sweep requested without [ttlMinutes] removes nothing: the cutoff is
    not a number and no entry compares older than it. *)
Theorem cleanup_without_age_removes_nothing (st : PolicyCache V)
    (request : Request V) (fields : RequestBody V) (now : Z) :
  json request = Returns fields →
  body_ttlMinutes fields = None →
  ∃ st',
    handleCleanup request now no_faults st =
      (st', Returns {| status := 200;
                       body := CleanupJson 0 (size (cache st)) |}) ∧
    cache st' = cache st ∧ stored st' = Some (cache st).
Proof.
  intros Hjson Hage. run_cache. rewrite Hjson. simpl. rewrite Hage. simpl.
  eexists. rewrite Nat.sub_diag. done.
Qed.

Lemma handleStore_persists (st : PolicyCache V) (key : string) (value : V)
    (ttl : option Z) (now now' : Z) :
  key ≠ "" → truthy_result value = true →
  let st1 := (handleStore truthy_result (CacheFacts.store_request key value ttl)
                now now' no_faults st).1 in
  stored st1 = Some (cache st1) ∧
  alarmAt st1 = Some (now + default 30 ttl * 60 * 1000).
Proof.
  intros Hkey%CacheFacts.eqb_empty_false Hvalue. run_cache.
  by rewrite Hkey, Hvalue.
Qed.

(** An entry stored while the storage works survives a restart of the
    object: the first request to the new instance loads the stored entries,
    and a check of the key before [expiresAt] answers the stored value. *)
Theorem stored_entry_survives_restart (st : PolicyCache V) (key : string)
    (value : V) (ttl : option Z) (now now' t : Z) (faults : StorageFaults) :
  key ≠ "" → truthy_result value = true →
  get_fault faults = None →
  t < now + default 30 ttl * 60 * 1000 →
  let st1 := (handleStore truthy_result (CacheFacts.store_request key value ttl)
                now now' no_faults st).1 in
  (fetch truthy_result (CacheFacts.check_request key) t t faults (restart st1)).2 =
    Returns {| status := 200;
               body := EntryJson value now' (now + default 30 ttl * 60 * 1000) |}.
Proof.
  intros Hkey Hvalue Hget Hlive st1.
  destruct (handleStore_persists st key value ttl now now' Hkey Hvalue)
    as [Hstored _].
  pose proof (CacheFacts.handleStore_entry truthy_result st key value ttl
                now now' no_faults Hkey Hvalue) as Hentry.
  fold st1 in Hstored, Hentry.
  rewrite AnalyzeFacts.fetch_route.
  assert (initialize faults (restart st1) =
            ({| cache := cache st1; stored := stored st1;
                alarmAt := alarmAt st1; initialized := true |}, Returns ()))
    as ->.
  { unfold initialize, restart, storage_get, set_cache, read, modify, mbind,
      stateful_bind, mret, stateful_ret. simpl. by rewrite Hget, Hstored. }
  change (AnalyzeFacts.route truthy_result (CacheFacts.check_request key) t t faults)
    with (handleCheck (CacheFacts.check_request (V := V) key) t).
  erewrite CacheFacts.handleCheck_entry by done. simpl.
  by rewrite bool_decide_eq_true_2.
Qed.

(** When writing to the storage throws, the store is answered 500, yet the
    entry is already in the in-memory map and is served from there; nothing
    is written and no alarm is scheduled for it. *)
Theorem store_with_failing_storage_keeps_entry_in_memory (st : PolicyCache V)
    (key : string) (value : V) (ttl : option Z) (now now' : Z)
    (faults : StorageFaults) (e : JSError) :
  key ≠ "" → truthy_result value = true →
  put_fault faults = Some e →
  ∃ st1,
    handleStore truthy_result (CacheFacts.store_request key value ttl)
      now now' faults st =
      (st1, Returns {| status := 500; body := ErrorJson e |}) ∧
    cache st1 !! key =
      Some {| result := value; timestamp := now';
              expiresAt := now + default 30 ttl * 60 * 1000;
              ttlMinutes := default 30 ttl |} ∧
    stored st1 = stored st ∧ alarmAt st1 = alarmAt st.
Proof.
  intros Hkey%CacheFacts.eqb_empty_false Hvalue Hput. run_cache.
  rewrite Hkey, Hvalue, Hput. simpl. eexists. split; [reflexivity|]. simpl.
  by rewrite lookup_insert_eq.
Qed.

(** The statistics count every entry once, as active or as expired.  The
    handler waits for nothing, so every [Date.now()] in it is taken to read
    the same time [now]. *)
Theorem stats_partition_entries (st : PolicyCache V) (now : Z) :
  ∃ total active expired,
    handleStats now st =
      (st, Returns {| status := 200; body := StatsJson total active expired |}) ∧
    total = size (cache st) ∧ (active + expired)%nat = total.
Proof.
  run_cache. eexists _, _, _. split; [reflexivity|]. split.
  - by rewrite length_fmap, length_map_to_list.
  - induction ((map_to_list (cache st)).*2) as [|entry entries IH]; [done|].
    rewrite !filter_cons. simpl.
    destruct (decide (now < expiresAt entry)), (decide (expiresAt entry ≤ now));
      simpl; lia.
Qed.

End WithValue.

(** A cache holding one entry, stored at time 1000 with the default time to
    live. *)
Definition one_entry : PolicyCache string :=
  (handleStore (λ _, true)
     (CacheFacts.store_request "https://example.com/privacy" "analysis" None)
     1000 1000 no_faults newPolicyCache).1.

Definition cleanup_request (maxAge : option Z) : Request string :=
  {| method := "POST"; pathname := "/cleanup";
     json := Returns {| url := None; body_result := None;
                        body_ttlMinutes := maxAge; id := None |} |}.

Definition failing_put : StorageFaults :=
  {| get_fault := None; put_fault := Some (Error "storage unavailable");
     setAlarm_fault := None |}.

Lemma cleanup_keeps_entries_created_after_cutoff_witness :
  ∃ st' removed remaining,
    handleCleanup (cleanup_request (Some 30)) 2000000 no_faults one_entry =
      (st', Returns {| status := 200; body := CleanupJson removed remaining |}) ∧
    (removed + remaining)%nat = size (cache one_entry).
Proof.
  destruct (cleanup_keeps_entries_created_after_cutoff one_entry
              (cleanup_request (Some 30)) _ 30 2000000 eq_refl eq_refl)
    as (st' & removed & remaining & Hrun & _ & _ & _ & Hsum).
  exists st', removed, remaining. exact (conj Hrun Hsum).
Defined.

Lemma cleanup_without_age_removes_nothing_witness :
  ∃ st',
    handleCleanup (cleanup_request None) 2000000 no_faults one_entry =
      (st', Returns {| status := 200;
                       body := CleanupJson 0 (size (cache one_entry)) |}) ∧
    cache st' = cache one_entry.
Proof.
  destruct (cleanup_without_age_removes_nothing one_entry
              (cleanup_request None) _ 2000000 eq_refl eq_refl)
    as (st' & Hrun & Hcache & _).
  exists st'. exact (conj Hrun Hcache).
Defined.

Lemma stored_entry_survives_restart_witness :
  (fetch (λ _ : string, true)
     (CacheFacts.check_request "https://example.com/privacy") 2000 2000
     no_faults (restart one_entry)).2 =
    Returns {| status := 200;
               body := EntryJson "analysis" 1000
                         (1000 + default 30 None * 60 * 1000) |}.
Proof.
  refine (stored_entry_survives_restart (λ _ : string, true) newPolicyCache
            "https://example.com/privacy" "analysis" None 1000 1000 2000
            no_faults _ eq_refl eq_refl _).
  - discriminate.
  - simpl. lia.
Defined.

Lemma store_with_failing_storage_keeps_entry_in_memory_witness :
  ∃ st1,
    handleStore (λ _ : string, true)
      (CacheFacts.store_request "https://example.com/privacy" "analysis" None)
      1000 1000 failing_put newPolicyCache =
      (st1, Returns {| status := 500;
                       body := ErrorJson (Error "storage unavailable") |}) ∧
    stored st1 = None.
Proof.
  destruct (store_with_failing_storage_keeps_entry_in_memory (λ _ : string, true)
              newPolicyCache "https://example.com/privacy" "analysis" None
              1000 1000 failing_put (Error "storage unavailable"))
    as (st1 & Hrun & _ & Hstored & _).
  - discriminate.
  - reflexivity.
  - reflexivity.
  - exists st1. exact (conj Hrun Hstored).
Defined.

End CacheLife.

(** * Further properties of the rate limiter *)

Module RateLimitMore.

Import RateLimit RateLimitFacts.
Local Open Scope list_scope.

(** After an admitted call the window of the identifier ends with the call,
    holds only requests younger than [windowMs], and is no longer than the
    cap. *)
Theorem admitted_window_is_recent_and_bounded (identifier : string) (env : Env)
    (now : Z) (lucky : bool) (store store' : gmap string (list Z)) :
  0 < windowMs env →
  checkRateLimit identifier env now lucky store = (store', Returns ()) →
  ∃ requests,
    store' !! identifier = Some requests ∧
    last requests = Some now ∧
    (∀ t, t ∈ requests → now - t < windowMs env) ∧
    Z.of_nat (length requests) ≤ maxRequests env.
Proof.
  intros Hwindow Hcall.
  set (recent := valid_requests now (windowMs env)
                   (default [] (store !! identifier))).
  destruct (Z_lt_le_dec (Z.of_nat (length recent)) (maxRequests env)) as [Hcap|Hcap].
  - destruct (checkRateLimit_admits identifier env now lucky store Hwindow Hcap)
      as (store1 & Hcall1 & Hlookup).
    rewrite Hcall in Hcall1. injection Hcall1 as <-.
    exists (recent ++ [now]). split; [done|]. split; [apply last_snoc|]. split.
    + intros t [Ht| ->%list_elem_of_singleton]%elem_of_app; [|lia].
      by apply list_elem_of_filter in Ht as [? _].
    + rewrite length_app. simpl. lia.
  - rewrite (checkRateLimit_rejects identifier env now lucky store Hcap) in Hcall.
    discriminate.
Qed.

Lemma admitted_window_is_recent_and_bounded_witness :
  ∃ requests,
    (checkRateLimit "203.0.113.7" two_per_minute 1000 false ∅).1
      !! "203.0.113.7" = Some requests ∧
    last requests = Some 1000.
Proof.
  destruct (admitted_window_is_recent_and_bounded "203.0.113.7" two_per_minute
              1000 false ∅
              (checkRateLimit "203.0.113.7" two_per_minute 1000 false ∅).1)
    as (requests & Hlookup & Hlast & _).
  - vm_compute. reflexivity.
  - vm_compute. reflexivity.
  - exists requests. exact (conj Hlookup Hlast).
Defined.

(** The periodic clean-up leaves no empty window behind: what it keeps for
    an identifier is the non-empty list of its requests younger than
    [windowMs]. *)
Theorem cleanup_leaves_only_recent_requests (now window : Z)
    (store : gmap string (list Z)) (identifier : string) (requests : list Z) :
  cleanupRateLimitStore now window store !! identifier = Some requests →
  requests ≠ [] ∧
  (∀ t, t ∈ requests → now - t < window) ∧
  ∃ old, store !! identifier = Some old ∧ requests = valid_requests now window old.
Proof.
  unfold cleanupRateLimitStore. rewrite lookup_omap.
  destruct (store !! identifier) as [old|]; [|discriminate]. simpl.
  case_bool_decide as Hempty; [discriminate|]. intros [= <-].
  split; [by intros Heq; rewrite Heq in Hempty|]. split; [|eauto].
  intros t Ht. by apply list_elem_of_filter in Ht as [? _].
Qed.

Lemma cleanup_leaves_only_recent_requests_witness :
  [50000] ≠ [] ∧ ∀ t, t ∈ [50000] → 61000 - t < 60000.
Proof.
  destruct (cleanup_leaves_only_recent_requests 61000 60000
              {[ "203.0.113.7" := [1000; 50000] ]} "203.0.113.7" [50000])
    as (Hsome & Hrecent & _).
  - vm_compute. reflexivity.
  - exact (conj Hsome Hrecent).
Defined.

Lemma valid_requests_later (now later window : Z) (requests : list Z) :
  now ≤ later →
  valid_requests later window (valid_requests now window requests) =
  valid_requests later window requests.
Proof.
  intros Hlater. unfold valid_requests.
  induction requests as [|t requests IH]; [done|].
  rewrite !filter_cons.
  destruct (decide (now - t < window)), (decide (later - t < window));
    rewrite ?filter_cons, ?decide_True, ?decide_False by done;
    try (f_equal; done); try done; lia.
Qed.

(** The window that a later call finds for an identifier does not depend on
    calls made for other identifiers in the meantime, whether or not one of
    them triggered the clean-up. *)
Lemma other_window_unchanged (identifier other : string) (env : Env)
    (now later : Z) (lucky : bool) (store store' : gmap string (list Z))
    (r : outcome ()) :
  identifier ≠ other → now ≤ later →
  checkRateLimit identifier env now lucky store = (store', r) →
  valid_requests later (windowMs env) (default [] (store' !! other)) =
  valid_requests later (windowMs env) (default [] (store !! other)).
Proof.
  intros Hne Hlater. run_check. case_bool_decide; simpl.
  - by intros [= <- _].
  - destruct lucky; simpl; intros [= <- _].
    + unfold cleanupRateLimitStore. rewrite lookup_omap, lookup_insert_ne by done.
      destruct (store !! other) as [old|]; simpl; [|done].
      case_bool_decide as Hempty; simpl.
      * apply length_zero_iff_nil in Hempty.
        rewrite <- (valid_requests_later now later (windowMs env) old Hlater).
        by rewrite Hempty.
      * by apply valid_requests_later.
    + by rewrite lookup_insert_ne.
Qed.

(** Admission is per identifier: whether a call is admitted or denied is
    not changed by an earlier call for another identifier. *)
Theorem admission_independent_of_other_identifiers (identifier other : string)
    (env : Env) (now later : Z) (lucky lucky' : bool)
    (store store' : gmap string (list Z)) (r : outcome ()) :
  identifier ≠ other → now ≤ later →
  checkRateLimit identifier env now lucky store = (store', r) →
  (checkRateLimit other env later lucky' store').2 =
  (checkRateLimit other env later lucky' store).2.
Proof.
  intros Hne Hlater Hcall.
  pose proof (other_window_unchanged identifier other env now later lucky
                store store' r Hne Hlater Hcall) as Hsame.
  run_check. rewrite Hsame. case_bool_decide; simpl; [done|].
  by destruct lucky'.
Qed.

Lemma admission_independent_of_other_identifiers_witness :
  (checkRateLimit "198.51.100.2" two_per_minute 2000 false
     (checkRateLimit "203.0.113.7" two_per_minute 1000 false ∅).1).2 =
  (checkRateLimit "198.51.100.2" two_per_minute 2000 false ∅).2.
Proof.
  apply (admission_independent_of_other_identifiers "203.0.113.7" "198.51.100.2"
           two_per_minute 1000 2000 false false ∅ _
           (checkRateLimit "203.0.113.7" two_per_minute 1000 false ∅).2).
  - discriminate.
  - lia.
  - apply surjective_pairing.
Defined.

End RateLimitMore.

(** * Validation utilities *)

Module Validation.

(** [s.includes(part)] *)
Fixpoint string_includes (s part : string) : bool :=
  String.prefix part s
  || match s with
     | EmptyString => false
     | String _ rest => string_includes rest part
     end.

(** What the modelled code reads of [new URL(url)]. *)
Record URL := {
  protocol : string;
  hostname : string;
  href : string
}.

Definition digit_between (low high : nat) (c : ascii) : bool :=
  bool_decide (48 + low ≤ nat_of_ascii c ≤ 48 + high)%nat.

(** [/^172\.(1[6-9]|2[0-9]|3[0-1])\./] *)
Definition matches_172_range (host : string) : bool :=
  match host with
  | String "1" (String "7" (String "2" (String "."
      (String tens (String units (String "." _)))))) =>
      (Ascii.eqb tens "1" && digit_between 6 9 units)
      || (Ascii.eqb tens "2" && digit_between 0 9 units)
      || (Ascii.eqb tens "3" && digit_between 0 1 units)
  | _ => false
  end.

(** [privateIpPatterns.some(pattern => pattern.test(hostname))], the
    patterns in the order of the source. *)
Definition is_private_host (host : string) : bool :=
  String.eqb host "localhost"
  || String.prefix "127." host
  || String.prefix "10." host
  || matches_172_range host
  || String.prefix "192.168." host
  || String.prefix "169.254." host
  || String.eqb host "[::1]"
  || String.prefix "fc00:" host
  || String.prefix "fe80:" host.

(** An error thrown inside the [try], with its [message]. *)
Inductive Thrown := thrown (e : JSError) (message : string).

Definition throw_error (message : string) : string + Thrown :=
  inr (thrown (Error message) message).

(** [new_URL s] is the parsed URL, or the message of the [TypeError] that
    the host's parser throws. *)
Definition validatePolicyUrl (new_URL : string → URL + string) (url : JValue)
  : outcome string :=
  match url with
  | JStr s =>
      if String.eqb s "" then Throws (Error "URL is required and must be a string")
      else
        let attempt : string + Thrown :=
          match new_URL s with
          | inr message => inr (thrown TypeError message)
          | inl parsedUrl =>
              (* Check protocol *)
              if negb (String.eqb (protocol parsedUrl) "http:"
                       || String.eqb (protocol parsedUrl) "https:")
              then throw_error "URL must use HTTP or HTTPS protocol"
              (* Check hostname *)
              else if String.eqb (hostname parsedUrl) ""
              then throw_error "URL must have a valid hostname"
              (* Block localhost/private IPs *)
              else if is_private_host (hostname parsedUrl)
              then throw_error "Private/localhost URLs are not allowed"
              else inl (href parsedUrl)
          end in
        match attempt with
        | inl href => Returns href
        | inr (thrown error message) =>
            if string_includes message "URL"
            then Throws (Error "Invalid URL format")
            else Throws error
        end
  | _ => Throws (Error "URL is required and must be a string")
  end.

(** [simpleHash] *)

(** ToInt32 of an integer. *)
Definition to_int32 (x : Z) : Z := (x + 2 ^ 31) mod 2 ^ 32 - 2 ^ 31.

(** [hash = ((hash << 5) - hash) + char; hash = hash & hash] *)
Definition hash_step (hash : Z) (c : ascii) : Z :=
  let char := Z.of_nat (nat_of_ascii c) in
  let hash := (to_int32 (to_int32 hash * 2 ^ 5) - hash) + char in
  to_int32 hash.

Fixpoint hash_loop (str : string) (hash : Z) : Z :=
  match str with
  | EmptyString => hash
  | String c rest => hash_loop rest (hash_step hash c)
  end.

Definition digit36 (d : Z) : ascii :=
  if d <? 10 then ascii_of_nat (48 + Z.to_nat d)
  else ascii_of_nat (97 + Z.to_nat (d - 10)).

(** The digits of a non-negative integer in base 36, most significant
    first; [fuel] bounds their number. *)
Fixpoint digits36 (fuel : nat) (n : Z) (acc : string) : string :=
  match fuel with
  | O => acc
  | S fuel =>
      let acc := String (digit36 (n mod 36)) acc in
      if n / 36 =? 0 then acc else digits36 fuel (n / 36) acc
  end.

(** [n.toString(36)] for an integer [0 ≤ n ≤ 2^31], which has at most
    seven digits. *)
Definition to_base36 (n : Z) : string := digits36 7 n EmptyString.

Definition simpleHash (str : string) : string :=
  to_base36 (Z.abs (hash_loop str 0)).

(** [sanitizeText] *)

(** [text.replace(/\s+/g, ' ')]: every maximal run of white space becomes
    one space. *)
Fixpoint collapse_go (text : string) (in_run : bool) : string :=
  match text with
  | EmptyString => EmptyString
  | String c rest =>
      if is_white_space c then
        if in_run then collapse_go rest true
        else String " " (collapse_go rest true)
      else String c (collapse_go rest false)
  end.

Definition collapse_white_space (text : string) : string :=
  collapse_go text false.

Definition maxLength : nat := 100 * 1000.

Definition sanitizeText (text : JValue) : string :=
  match text with
  | JStr text =>
      if String.eqb text "" then ""
      else
        let sanitized := trim (collapse_white_space text) in
        if bool_decide (maxLength < String.length sanitized)%nat
        then String.substring 0 maxLength sanitized ++ "..."
        else sanitized
  | _ => ""
  end.

End Validation.

Module ValidationFacts.

Import Validation.

(** Whatever goes wrong after the type test, the caller is told "Invalid URL
    format": the messages about the protocol, the host name and private
    addresses all contain "URL" and are replaced by the [catch] block.  Only
    a parser error whose message does not mention "URL" passes unchanged. *)
Theorem validation_failures_are_reported_as_invalid_format
    (new_URL : string → URL + string) (url : JValue) (e : JSError) :
  validatePolicyUrl new_URL url = Throws e →
  e = Error "URL is required and must be a string" ∨
  e = Error "Invalid URL format" ∨
  (e = TypeError ∧
   ∃ s message, url = JStr s ∧ new_URL s = inr message ∧
                string_includes message "URL" = false).
Proof.
  unfold validatePolicyUrl.
  destruct url as [| |b|z|s|items|props]; try (intros [= <-]; by left).
  destruct (String.eqb s ""); [intros [= <-]; by left|].
  destruct (new_URL s) as [parsedUrl|message] eqn:Hparse.
  - destruct (negb _); [intros [= <-]; right; by left|].
    destruct (String.eqb (hostname parsedUrl) ""); [intros [= <-]; right; by left|].
    destruct (is_private_host _); [intros [= <-]; right; by left|].
    discriminate.
  - destruct (string_includes message "URL") eqn:Hmentions; intros [= <-].
    + right. by left.
    + right. right. split; [done|]. by exists s, message.
Qed.

(** A parser that accepts everything as an http URL of the given host. *)
Definition parse_as_host (host : string) (s : string) : URL + string :=
  inl {| protocol := "http:"; hostname := host; href := s |}.

Lemma validation_failures_are_reported_as_invalid_format_witness :
  validatePolicyUrl (parse_as_host "localhost") (JStr "http://localhost/privacy") =
    Throws (Error "Invalid URL format").
Proof.
  destruct (validation_failures_are_reported_as_invalid_format
              (parse_as_host "localhost") (JStr "http://localhost/privacy")
              (Error "Invalid URL format") eq_refl)
    as [Hrequired|[Hformat|[Htype _]]].
  - discriminate Hrequired.
  - reflexivity.
  - discriminate Htype.
Defined.

(** A URL is accepted only if it parses, uses http or https, has a host
    name, and the host name matches none of the private patterns; the value
    returned is the parser's normalized [href]. *)
Theorem accepted_url_is_public_http (new_URL : string → URL + string)
    (url : JValue) (accepted : string) :
  validatePolicyUrl new_URL url = Returns accepted →
  ∃ s parsedUrl,
    url = JStr s ∧ s ≠ "" ∧ new_URL s = inl parsedUrl ∧
    accepted = href parsedUrl ∧
    (protocol parsedUrl = "http:" ∨ protocol parsedUrl = "https:") ∧
    hostname parsedUrl ≠ "" ∧
    is_private_host (hostname parsedUrl) = false.
Proof.
  unfold validatePolicyUrl.
  destruct url as [| |b|z|s|items|props]; try discriminate.
  destruct (String.eqb_spec s ""); [discriminate|].
  destruct (new_URL s) as [parsedUrl|message] eqn:Hparse.
  - destruct (String.eqb_spec (protocol parsedUrl) "http:") as [Hhttp|Hhttp];
      destruct (String.eqb_spec (protocol parsedUrl) "https:") as [Hhttps|Hhttps];
      simpl; try discriminate;
      (destruct (String.eqb_spec (hostname parsedUrl) ""); [discriminate|]);
      (destruct (is_private_host _) eqn:Hprivate; [discriminate|]);
      intros [= <-]; exists s, parsedUrl; eauto 10.
  - destruct (string_includes message "URL"); discriminate.
Qed.

Lemma accepted_url_is_public_http_witness :
  ∃ parsedUrl,
    parse_as_host "example.com" "http://example.com/privacy" = inl parsedUrl ∧
    is_private_host (hostname parsedUrl) = false.
Proof.
  destruct (accepted_url_is_public_http (parse_as_host "example.com")
              (JStr "http://example.com/privacy") "http://example.com/privacy"
              eq_refl)
    as (s & parsedUrl & Hurl & _ & Hparse & _ & _ & _ & Hpublic).
  injection Hurl as <-. by exists parsedUrl.
Defined.

(** The decimal digit [d] as a character. *)
Definition digit (d : nat) : ascii := ascii_of_nat (48 + d).

(** Among the hosts [172.NN.…] with a two-digit second label, the private
    ones are exactly those with 16 ≤ NN ≤ 31. *)
Theorem private_172_hosts_are_16_to_31 (tens units : nat) (rest : string) :
  (tens < 10)%nat → (units < 10)%nat →
  is_private_host
    ("172." ++ String (digit tens) (String (digit units) ("." ++ rest))) = true
  ↔ (16 ≤ 10 * tens + units ≤ 31)%nat.
Proof.
  intros Htens Hunits.
  do 10 (destruct tens as [|tens]; [
    do 10 (destruct units as [|units]; [cbn; split; intros ?; first [done | lia]|]);
    lia |]).
  lia.
Qed.

Lemma private_172_hosts_are_16_to_31_witness :
  is_private_host "172.16.0.1" = true ↔ (16 ≤ 10 * 1 + 6 ≤ 31)%nat.
Proof.
  apply (private_172_hosts_are_16_to_31 1 6 "0.1"); lia.
Defined.

(** A bracketed host, the form in which a URL carries an IPv6 literal, is
    private only if it is the loopback [[::1]]: the patterns [fc00:] and
    [fe80:] are anchored at the first character and do not match it. *)
Theorem bracketed_host_private_only_if_loopback (rest : string) :
  is_private_host (String "[" rest) = true ↔ String "[" rest = "[::1]".
Proof.
  unfold is_private_host. cbn. rewrite !orb_false_r.
  rewrite String.eqb_eq. split; congruence.
Qed.

(** The polynomial [c_0 * 31^(n-1) + ... + c_(n-1)] over the character
    codes, started from [h]. *)
Fixpoint poly31 (str : string) (h : Z) : Z :=
  match str with
  | EmptyString => h
  | String c rest => poly31 rest (31 * h + Z.of_nat (nat_of_ascii c))
  end.

Lemma to_int32_add_multiple (a k : Z) : to_int32 (a + k * 2 ^ 32) = to_int32 a.
Proof.
  unfold to_int32. replace (a + k * 2 ^ 32 + 2 ^ 31) with (a + 2 ^ 31 + k * 2 ^ 32)
    by ring.
  by rewrite Z_mod_plus_full.
Qed.

Lemma to_int32_repr (a : Z) : ∃ k, to_int32 a = a + k * 2 ^ 32.
Proof.
  exists (- ((a + 2 ^ 31) / 2 ^ 32)). unfold to_int32.
  rewrite Z.mod_eq by done. ring.
Qed.

Lemma to_int32_range (a : Z) : - 2 ^ 31 ≤ to_int32 a < 2 ^ 31.
Proof.
  unfold to_int32. pose proof (Z.mod_pos_bound (a + 2 ^ 31) (2 ^ 32)). lia.
Qed.

Lemma hash_step_poly (p : Z) (c : ascii) :
  hash_step (to_int32 p) c = to_int32 (31 * p + Z.of_nat (nat_of_ascii c)).
Proof.
  unfold hash_step.
  destruct (to_int32_repr p) as [k0 Hp].
  destruct (to_int32_repr (to_int32 p)) as [k1 Hpp].
  destruct (to_int32_repr (to_int32 (to_int32 p) * 2 ^ 5)) as [k2 Hshift].
  rewrite Hshift, Hpp, Hp.
  replace ((p + k0 * 2 ^ 32 + k1 * 2 ^ 32) * 2 ^ 5 + k2 * 2 ^ 32
           - (p + k0 * 2 ^ 32) + Z.of_nat (nat_of_ascii c))
    with (31 * p + Z.of_nat (nat_of_ascii c)
          + (31 * k0 + 32 * k1 + k2) * 2 ^ 32) by ring.
  apply to_int32_add_multiple.
Qed.

Lemma hash_loop_cons (c : ascii) (rest : string) (hash : Z) :
  hash_loop (String c rest) hash = hash_loop rest (hash_step hash c).
Proof. reflexivity. Qed.

Lemma poly31_cons (c : ascii) (rest : string) (h : Z) :
  poly31 (String c rest) h = poly31 rest (31 * h + Z.of_nat (nat_of_ascii c)).
Proof. reflexivity. Qed.

Lemma hash_loop_poly (str : string) :
  ∀ p, hash_loop str (to_int32 p) = to_int32 (poly31 str p).
Proof.
  induction str as [|c rest IH]; intros p; [reflexivity|].
  rewrite hash_loop_cons, poly31_cons, hash_step_poly. apply IH.
Qed.

(** [simpleHash] is the multiplier-31 polynomial hash of the character
    codes, reduced to a signed 32-bit integer, taken in absolute value and
    written in base 36; the number written lies between 0 and 2^31. *)
Theorem simpleHash_is_absolute_polynomial_hash (str : string) :
  simpleHash str = to_base36 (Z.abs (to_int32 (poly31 str 0))) ∧
  0 ≤ Z.abs (to_int32 (poly31 str 0)) ≤ 2 ^ 31.
Proof.
  split.
  - unfold simpleHash. change 0 with (to_int32 0) at 1.
    by rewrite hash_loop_poly.
  - pose proof (to_int32_range (poly31 str 0)). lia.
Qed.

Lemma length_substring (n : nat) (s : string) :
  (String.length (String.substring 0 n s) ≤ n)%nat.
Proof.
  revert s. induction n as [|n IH]; intros [|c s]; simpl; try lia.
  specialize (IH s). lia.
Qed.

(** The sanitized text is never longer than [maxLength] plus the three
    characters of the ellipsis, and what is not a non-empty string is
    sanitized to the empty string. *)
Theorem sanitizeText_is_bounded (text : JValue) :
  (String.length (sanitizeText text) ≤ maxLength + 3)%nat ∧
  ((∀ s, text = JStr s → s = "") → sanitizeText text = "").
Proof.
  unfold sanitizeText. generalize maxLength. intros bound. split.
  - destruct text as [| |b|z|s|items|props]; simpl; try lia.
    destruct (String.eqb s ""); simpl; [lia|].
    case_bool_decide as Hlong; [|lia].
    rewrite ChunkerFacts.length_append. simpl.
    pose proof (length_substring bound (trim (collapse_white_space s))). lia.
  - intros Hempty. destruct text as [| |b|z|s|items|props]; try done.
    by rewrite (Hempty s eq_refl).
Qed.

(** Text in which white space occurs only as single spaces; [after_space]
    tells whether the character before the text is a space. *)
Fixpoint single_spaced (s : string) (after_space : bool) : Prop :=
  match s with
  | EmptyString => True
  | String c rest =>
      if is_white_space c
      then after_space = false ∧ c = " "%char ∧ single_spaced rest true
      else single_spaced rest false
  end.

(** Text that does not begin with white space. *)
Definition starts_clean (s : string) : Prop :=
  match s with
  | EmptyString => True
  | String c _ => is_white_space c = false
  end.

Lemma collapse_go_single_spaced (s : string) :
  ∀ in_run, single_spaced (collapse_go s in_run) in_run.
Proof.
  induction s as [|c rest IH]; intros in_run; simpl; [done|].
  destruct (is_white_space c) eqn:Hc.
  - destruct in_run; [apply IH|]. simpl. auto.
  - simpl. rewrite Hc. apply IH.
Qed.

Lemma collapse_go_fixed (s : string) :
  ∀ in_run, single_spaced s in_run → collapse_go s in_run = s.
Proof.
  induction s as [|c rest IH]; intros in_run; simpl; [done|].
  destruct (is_white_space c).
  - intros (-> & -> & Hrest). by rewrite IH.
  - intros Hrest. by rewrite IH.
Qed.

Lemma single_spaced_start (s : string) (b b' : bool) :
  starts_clean s → single_spaced s b → single_spaced s b'.
Proof. destruct s as [|c rest]; simpl; [done|]. by intros ->. Qed.

Lemma trim_start_clean (s : string) : starts_clean (trim_start s).
Proof.
  induction s as [|c rest IH]; simpl; [done|].
  by destruct (is_white_space c) eqn:Hc; simpl.
Qed.

Lemma trim_start_fixed (s : string) : starts_clean s → trim_start s = s.
Proof. destruct s as [|c rest]; simpl; [done|]. by intros ->. Qed.

Lemma trim_start_single_spaced (s : string) :
  ∀ b, single_spaced s b → single_spaced (trim_start s) false.
Proof.
  induction s as [|c rest IH]; intros b; simpl; [done|].
  destruct (is_white_space c) eqn:Hc.
  - intros (_ & _ & Hrest). by eapply IH.
  - intros Hrest. simpl. by rewrite Hc.
Qed.

Lemma trim_end_cons_clean (c : ascii) (rest : string) :
  is_white_space c = false →
  trim_end (String c rest) = String c (trim_end rest).
Proof. intros Hc. simpl. rewrite Hc. by destruct (trim_end rest). Qed.

Lemma trim_end_clean (s : string) : starts_clean s → starts_clean (trim_end s).
Proof.
  destruct s as [|c rest]; [done|]. intros Hc. simpl in Hc.
  by rewrite trim_end_cons_clean.
Qed.

Lemma trim_end_single_spaced (s : string) :
  ∀ b, single_spaced s b → single_spaced (trim_end s) b.
Proof.
  induction s as [|c rest IH]; intros b; [done|].
  destruct (is_white_space c) eqn:Hc.
  - simpl. rewrite Hc. intros (-> & -> & Hrest). apply IH in Hrest.
    destruct (trim_end rest) as [|c' kept]; [done|]. simpl in *. auto.
  - rewrite trim_end_cons_clean by done. simpl. rewrite Hc. apply IH.
Qed.

Lemma trim_end_idempotent (s : string) : trim_end (trim_end s) = trim_end s.
Proof.
  induction s as [|c rest IH]; [done|]. simpl.
  destruct (trim_end rest) as [|c' kept] eqn:Hkept.
  - destruct (is_white_space c) eqn:Hc; [done|]. simpl. by rewrite Hc.
  - change (trim_end (String c (String c' kept)) = String c (String c' kept)).
    simpl in IH |- *. destruct (trim_end kept); by rewrite IH.
Qed.

Lemma trim_clean (s : string) : starts_clean (trim s).
Proof. apply trim_end_clean, trim_start_clean. Qed.

Lemma trim_idempotent (s : string) : trim (trim s) = trim s.
Proof.
  unfold trim. rewrite (trim_start_fixed (trim_end (trim_start s))).
  - apply trim_end_idempotent.
  - apply trim_end_clean, trim_start_clean.
Qed.

Lemma trim_single_spaced (s : string) (b : bool) :
  single_spaced s b → single_spaced (trim s) false.
Proof. intros H. by eapply trim_end_single_spaced, trim_start_single_spaced. Qed.

Lemma substring_single_spaced (n : nat) :
  ∀ s b, single_spaced s b → single_spaced (String.substring 0 n s) b.
Proof.
  induction n as [|n IH]; intros [|c rest] b; simpl; try done.
  destruct (is_white_space c); [|apply IH].
  intros (? & ? & ?). auto.
Qed.

Lemma substring_clean (n : nat) (s : string) :
  starts_clean s → starts_clean (String.substring 0 n s).
Proof. destruct n, s; simpl; done. Qed.

Lemma length_substring_exact (n : nat) :
  ∀ s, (n ≤ String.length s)%nat → String.length (String.substring 0 n s) = n.
Proof.
  induction n as [|n IH]; intros [|c rest]; simpl; try done; try lia.
  intros Hn. rewrite IH; lia.
Qed.

Lemma substring_prefix_exact (p q : string) :
  String.substring 0 (String.length p) (p ++ q) = p.
Proof.
  induction p as [|c p IH]; simpl; [by destruct q|]. by rewrite IH.
Qed.

Lemma ellipsis_single_spaced (p : string) :
  ∀ b, single_spaced p b → single_spaced (p ++ "...") b.
Proof.
  induction p as [|c p IH]; intros b; simpl; [done|].
  destruct (is_white_space c); [|apply IH].
  intros (? & ? & ?). auto.
Qed.

Lemma ellipsis_trim_end (p : string) : trim_end (p ++ "...") = p ++ "...".
Proof.
  induction p as [|c p IH]; [done|].
  change (trim_end (String c (p ++ "...")) = String c (p ++ "...")).
  simpl. rewrite IH. by destruct p.
Qed.

Lemma ellipsis_clean (p : string) : starts_clean p → starts_clean (p ++ "...").
Proof. by destruct p. Qed.

(** Sanitizing is idempotent: sanitized text, truncated or not, is left as
    it is by a second pass. *)
Theorem sanitizeText_idempotent (text : JValue) :
  sanitizeText (JStr (sanitizeText text)) = sanitizeText text.
Proof.
  unfold sanitizeText. generalize maxLength. intros bound.
  destruct text as [| |b|z|s|items|props]; try reflexivity.
  destruct (String.eqb s ""); [reflexivity|].
  set (clean := trim (collapse_white_space s)).
  assert (single_spaced clean false) as Hspaced
    by (eapply trim_single_spaced, collapse_go_single_spaced).
  assert (starts_clean clean) as Hclean by apply trim_clean.
  case_bool_decide as Hlong.
  - set (kept := String.substring 0 bound clean).
    assert (String.length kept = bound) as Hkept
      by (apply length_substring_exact; lia).
    assert (String.eqb (kept ++ "...") "" = false) as -> by by destruct kept.
    unfold collapse_white_space.
    rewrite collapse_go_fixed
      by by apply ellipsis_single_spaced, substring_single_spaced.
    unfold trim. rewrite trim_start_fixed
      by by apply ellipsis_clean, substring_clean.
    rewrite ellipsis_trim_end.
    rewrite bool_decide_eq_true_2
      by (rewrite ChunkerFacts.length_append; simpl; lia).
    rewrite <- Hkept at 1. by rewrite substring_prefix_exact.
  - destruct (String.eqb_spec clean "") as [->|Hne]; [reflexivity|].
    assert (trim clean = clean) as Htrim by apply trim_idempotent.
    unfold collapse_white_space. rewrite collapse_go_fixed by done.
    rewrite Htrim. by rewrite bool_decide_eq_false_2.
Qed.

End ValidationFacts.

(** * The [/api/results] handler and the scheduled sweep *)

Module Results.

Import RateLimit Analyze.

(** [request.url] by its path and query string, with the values that
    [searchParams.get] gives for [id] and [url]. *)
Record ResultsRequest := {
  method : string;
  pathname : string;
  search : string;
  param_id : option string;
  param_url : option string
}.

(** Parameters come from the query string. *)
Definition well_formed (request : ResultsRequest) : Prop :=
  search request = "" → param_id request = None ∧ param_url request = None.

Inductive ResultsJson :=
  | FailureJson (error : string) (message : option JSError)
  | FoundJson (result : option PolicyResult) (timestamp expiresAt : option Z).

Record ResultsResponse := {
  status : Z;
  body : ResultsJson
}.

Definition success (r : ResultsResponse) : bool :=
  match body r with
  | FoundJson _ _ _ => true
  | FailureJson _ _ => false
  end.

(** The path of the request made of [`${request.url}/get`]. *)
Definition get_path (request : ResultsRequest) : string :=
  if String.eqb (search request) "" then pathname request ++ "/get"
  else pathname request.

Definition handleResults (call_fault : option JSError)
    (faults : Cache.StorageFaults) (now : Z) (request : ResultsRequest)
  : stateful World ResultsResponse :=
  try_catch_st
    (if negb (String.eqb (method request) "GET") then
       mret {| status := 405; body := FailureJson "Method not allowed" None |}
     else
       let resultId := param_id request in
       let resultUrl := param_url request in
       if Cache.falsy_string resultId && Cache.falsy_string resultUrl then
         mret {| status := 400;
                 body := FailureJson "Either result ID or URL parameter is required" None |}
       else
         (* Get from cache *)
         cacheResponse ← stub_fetch call_fault
           {| Cache.method := "POST"; Cache.pathname := get_path request;
              Cache.json := Returns {| Cache.url := resultUrl;
                                       Cache.body_result := None;
                                       Cache.body_ttlMinutes := None;
                                       Cache.id := resultId |} |}
           now now faults;
         if Cache.status cacheResponse =? 404 then
           mret {| status := 404;
                   body := FailureJson "Result not found in cache" None |}
         else if negb (Cache.status cacheResponse =? 200) then
           mret {| status := 500; body := FailureJson "Cache retrieval failed" None |}
         else
           cachedData ← lift (response_json cacheResponse);
           match cachedData with
           | Cache.EntryJson result timestamp expiresAt =>
               mret {| status := 200;
                       body := FoundJson (Some result) (Some timestamp) (Some expiresAt) |}
           | _ => mret {| status := 200; body := FoundJson None None None |}
           end)
    (λ error,
     mret {| status := 500; body := FailureJson "Failed to retrieve results" (Some error) |}).

(** The cron trigger of the worker: the bulk sweep with the configured
    maximum age; its [catch] only logs. *)
Definition scheduled (call_fault : option JSError) (faults : Cache.StorageFaults)
    (env : Env) (now : Z) : stateful World unit :=
  try_catch_st
    (_ ← stub_fetch call_fault
           {| Cache.method := "POST"; Cache.pathname := "/cleanup";
              Cache.json := Returns
                {| Cache.url := None; Cache.body_result := None;
                   Cache.body_ttlMinutes :=
                     Some (or_default (ANALYSIS_CACHE_TTL_MINUTES env) 30);
                   Cache.id := None |} |}
           now now faults;
     mret ())
    (λ _, mret ()).

End Results.

Module ResultsFacts.

Import RateLimit Analyze Results.

(** A request that the durable object routes to none of its handlers. *)
Lemma fetch_unrouted (request : Cache.Request PolicyResult) (now now' : Z)
    (faults : Cache.StorageFaults) (st : Cache.PolicyCache PolicyResult) :
  Cache.method request = "POST" →
  Cache.ends_with (Cache.pathname request) "/store" = false →
  Cache.ends_with (Cache.pathname request) "/check" = false →
  Cache.ends_with (Cache.pathname request) "/get" = false →
  Cache.ends_with (Cache.pathname request) "/cleanup" = false →
  Cache.fetch (λ _, true) request now now' faults st =
    match Cache.initialize faults st with
    | (st1, Returns _) =>
        (st1, Returns {| Cache.status := 405;
                         Cache.body := Cache.Text "Method not allowed" |})
    | (st1, Throws e) => (st1, Throws e)
    end.
Proof.
  intros Hmethod Hstore Hcheck Hget Hcleanup.
  rewrite AnalyzeFacts.fetch_route. unfold AnalyzeFacts.route.
  rewrite Hmethod, Hstore, Hcheck, Hget, Hcleanup. reflexivity.
Qed.

(** A look-up through [/api/results] never succeeds.  The parameters are
    read from the query string, so the request built from
    [`${request.url}/get`] carries [/get] inside its query and keeps the
    path [/api/results], which the durable object answers with 405; the
    handler turns that into 500, and into 400 or 405 when the parameters or
    the method are wrong. *)
Theorem results_lookup_never_succeeds (call_fault : option JSError)
    (faults : Cache.StorageFaults) (now : Z) (request : ResultsRequest)
    (w : World) :
  pathname request = "/api/results" → well_formed request →
  ∃ w' response,
    handleResults call_fault faults now request w = (w', Returns response) ∧
    success response = false ∧
    (status response = 405 ∨ status response = 400 ∨ status response = 500).
Proof.
  intros Hpath Hformed. unfold handleResults, try_catch_st.
  destruct (String.eqb (method request) "GET"); simpl;
    [|eexists _, _; split; [reflexivity|]; simpl; auto].
  destruct (_ && _) eqn:Hparams; simpl;
    [eexists _, _; split; [reflexivity|]; simpl; auto|].
  assert (get_path request = "/api/results") as ->.
  { unfold get_path. destruct (String.eqb_spec (search request) "") as [Hs|Hs];
      [|done].
    destruct (Hformed Hs) as [Hid Hurl]. by rewrite Hid, Hurl in Hparams. }
  unfold mbind, stateful_bind, stub_fetch, lift.
  destruct call_fault as [e|]; [eexists _, _; split; [reflexivity|]; simpl; auto|].
  unfold on_cache. rewrite fetch_unrouted by reflexivity.
  destruct (Cache.initialize faults (policyCache w)) as [st1 [[]|e]];
    eexists _, _; (split; [reflexivity|]); simpl; auto.
Qed.

Definition lookup_by_url : ResultsRequest :=
  {| method := "GET"; pathname := "/api/results";
     search := "?url=https://example.com/privacy";
     param_id := None; param_url := Some "https://example.com/privacy" |}.

Lemma results_lookup_never_succeeds_witness :
  ∃ w' response,
    handleResults None Cache.no_faults 2000 lookup_by_url AnalyzeFacts.fresh_world =
      (w', Returns response) ∧
    success response = false.
Proof.
  destruct (results_lookup_never_succeeds None Cache.no_faults 2000 lookup_by_url
              AnalyzeFacts.fresh_world)
    as (w' & response & Hrun & Hfailed & _).
  - reflexivity.
  - intros Hsearch. discriminate Hsearch.
  - exists w', response. exact (conj Hrun Hfailed).
Defined.

(** The scheduled sweep never throws, whatever happens to its call; when
    the call reaches an initialized object whose storage accepts the write,
    the entries left are exactly those created at or after
    [now - ttl * 60000], [ttl] being the configured time to live or 30. *)
Theorem scheduled_sweep_is_silent_and_sweeps_by_age (call_fault : option JSError)
    (faults : Cache.StorageFaults) (env : Env) (now : Z) (w : World) :
  ∃ w',
    scheduled call_fault faults env now w = (w', Returns ()) ∧
    (call_fault = None →
     Cache.initialized (policyCache w) = true →
     Cache.put_fault faults = None →
     ∀ k e,
       Cache.cache (policyCache w') !! k = Some e ↔
       Cache.cache (policyCache w) !! k = Some e ∧
       now - or_default (ANALYSIS_CACHE_TTL_MINUTES env) 30 * 60 * 1000
         ≤ Cache.timestamp e).
Proof.
  unfold scheduled, try_catch_st, mbind, stateful_bind, mret, stateful_ret.
  destruct (stub_fetch _ _ _ _ _ w) as [w' [response|e]] eqn:Hcall;
    (eexists; split; [reflexivity|]); intros -> Hready Hput;
    revert Hcall; unfold stub_fetch, on_cache;
    rewrite AnalyzeFacts.fetch_route, AnalyzeFacts.initialize_again by done;
    unfold AnalyzeFacts.route; simpl;
    unfold Cache.handleCleanup, Cache.storage_put_cache, Cache.set_cache,
      try_catch_st, lift, modify, read, mbind, stateful_bind, mret,
      stateful_ret; simpl; rewrite Hput; simpl; intros [= <- ?].
  intros k e. simpl. rewrite map_lookup_filter_Some. simpl.
  split; intros [? ?]; split; (done || lia).
Qed.

End ResultsFacts.

(** * The analyze handler and the cache together *)

Module AnalyzeMore.

Import RateLimit Analyze.

(** A denied request is answered 429 before any other work: neither the
    rate-limit store nor the cache changes, and no analysis runs. *)
Theorem denied_request_is_answered_429_without_work (host : Host) (env : Env)
    (request : HttpRequest) (w : World) (props : list (string * JValue))
    (url href : string) (e : JSError) :
  method request = "POST" →
  json request = Returns (JObj props) →
  obj_get props "url" = JStr url → url ≠ "" →
  parse_url host url = Returns href →
  (checkRateLimit (client_of request) env (at_admission (times host))
     (lucky host) (rateLimitStore w)).2 = Throws e →
  handleAnalyze host env request w =
    (w, Returns {| status := 429;
                   body := FailureJson "Rate limit exceeded. Please try again later."
                             None |}).
Proof.
  intros Hmethod Hjson Hurl Hnonempty%CacheFacts.eqb_empty_false Hparse Hdenied.
  unfold handleAnalyze, try_catch_st. rewrite Hmethod, Hjson. simpl.
  unfold mbind, stateful_bind, lift, mret, stateful_ret. simpl.
  rewrite Hurl. simpl. rewrite Hnonempty, Hparse. simpl.
  unfold on_rate. revert Hdenied. RateLimitFacts.run_check.
  case_bool_decide; simpl; [|by destruct (lucky host)].
  intros _. by destruct w.
Qed.

(** A worker that has admitted two requests of the client within the last
    minute. *)
Definition busy_world : World :=
  {| rateLimitStore := {[ "203.0.113.7" := [900; 950] ]};
     policyCache := Cache.newPolicyCache |}.

Lemma denied_request_is_answered_429_without_work_witness :
  handleAnalyze (AnalyzeFacts.example_host None Cache.no_faults)
    RateLimitFacts.two_per_minute AnalyzeFacts.example_request busy_world =
    (busy_world,
     Returns {| status := 429;
                body := FailureJson
                          "Rate limit exceeded. Please try again later." None |}).
Proof.
  apply (denied_request_is_answered_429_without_work
           (AnalyzeFacts.example_host None Cache.no_faults)
           RateLimitFacts.two_per_minute AnalyzeFacts.example_request busy_world
           [("url", JStr "https://example.com/privacy")]
           "https://example.com/privacy" "https://example.com/privacy"
           (Error "Rate limit exceeded")).
  - reflexivity.
  - reflexivity.
  - reflexivity.
  - discriminate.
  - reflexivity.
  - vm_compute. reflexivity.
Defined.

(** The store call of the handler, when it reaches an initialized object,
    puts the result under the URL, whatever the storage does. *)
Lemma store_call_records (w : World) (url : string) (result : PolicyResult)
    (ttl now now' : Z) (faults : Cache.StorageFaults) :
  Cache.initialized (policyCache w) = true → url ≠ "" →
  ∃ w' response,
    stub_fetch None
      (cache_request "/api/analyze/store" url (Some result) (Some ttl))
      now now' faults w = (w', Returns response) ∧
    rateLimitStore w' = rateLimitStore w ∧
    Cache.initialized (policyCache w') = true ∧
    Cache.cache (policyCache w') !! url =
      Some {| Cache.result := result; Cache.timestamp := now';
              Cache.expiresAt := now + ttl * 60 * 1000;
              Cache.ttlMinutes := ttl |}.
Proof.
  intros Hready Hurl. unfold stub_fetch, on_cache.
  rewrite AnalyzeFacts.fetch_route, AnalyzeFacts.initialize_again by done.
  change (AnalyzeFacts.route (λ _, true)
            (cache_request "/api/analyze/store" url (Some result) (Some ttl))
            now now' faults)
    with (Cache.handleStore (λ _ : PolicyResult, true)
            (CacheFacts.store_request url result (Some ttl)) now now' faults).
  pose proof (CacheFacts.handleStore_entry (λ _, true) (policyCache w) url result
                (Some ttl) now now' faults Hurl eq_refl) as Hentry.
  destruct (AnalyzeFacts.handleStore_answers (λ _, true)
              (CacheFacts.store_request url result (Some ttl)) now now' faults
              (policyCache w)) as (st' & response & Hrun & Hinit).
  rewrite Hrun in Hentry |- *. simpl in *.
  eexists _, _. split; [reflexivity|]. simpl.
  split; [done|]. split; [by rewrite Hinit|done].
Qed.

(** The lookup call of the handler on an initialized object holding a live
    entry for the URL. *)
Lemma check_call_hits (w : World) (url : string)
    (entry : Cache.CacheEntry PolicyResult) (t : Z) (faults : Cache.StorageFaults) :
  Cache.initialized (policyCache w) = true → url ≠ "" →
  Cache.cache (policyCache w) !! url = Some entry →
  t < Cache.expiresAt entry →
  stub_fetch None (cache_request "/api/analyze/check" url None None) t t faults w =
    (w, Returns {| Cache.status := 200;
                   Cache.body := Cache.EntryJson (Cache.result entry)
                                   (Cache.timestamp entry) (Cache.expiresAt entry) |}).
Proof.
  intros Hready Hurl Hentry Hlive. unfold stub_fetch, on_cache.
  rewrite AnalyzeFacts.fetch_route, AnalyzeFacts.initialize_again by done.
  change (AnalyzeFacts.route (λ _, true)
            (cache_request "/api/analyze/check" url None None) t t faults)
    with (Cache.handleCheck (CacheFacts.check_request (V := PolicyResult) url) t).
  rewrite (CacheFacts.handleCheck_entry _ url entry t Hurl Hentry).
  rewrite bool_decide_eq_true_2 by done. by destruct w.
Qed.

(** What a computed (not cached) answer of the handler tells about the
    run that produced it. *)
Lemma computed_answer_inversion (host : Host) (env : Env)
    (request : HttpRequest) (w w1 : World) (result : PolicyResult)
    (stamp : option Z) :
  pathname request = "/api/analyze" → search request = "" →
  handleAnalyze host env request w =
    (w1, Returns {| status := 200; body := ResultJson (Some result) false stamp |}) →
  ∃ props url,
    method request = "POST" ∧
    json request = Returns (JObj props) ∧
    obj_get props "url" = JStr url ∧ url ≠ "" ∧
    (∃ href, parse_url host url = Returns href) ∧
    Cache.initialized (policyCache w1) = true ∧
    Cache.cache (policyCache w1) !! url =
      Some {| Cache.result := result;
              Cache.timestamp := at_store' (times host);
              Cache.expiresAt :=
                at_store (times host)
                + or_default (ANALYSIS_CACHE_TTL_MINUTES env) 30 * 60 * 1000;
              Cache.ttlMinutes := or_default (ANALYSIS_CACHE_TTL_MINUTES env) 30 |}.
Proof.
  intros Hpath Hsearch. unfold handleAnalyze, try_catch_st, sub_path.
  rewrite Hpath, Hsearch. simpl.
  destruct (String.eqb_spec (method request) "POST") as [Hmethod|]; simpl;
    [|discriminate].
  destruct (json request) as [body|e]; simpl; [|discriminate].
  unfold mbind, stateful_bind, lift, mret, stateful_ret. simpl.
  destruct body as [| |b|z|s|items|props]; simpl; try discriminate.
  destruct (obj_get props "url") as [| |b|z|url|items|props'] eqn:Hurl; simpl;
    try discriminate.
  - destruct b; discriminate.
  - destruct (negb (z =? 0)); discriminate.
  - destruct (String.eqb_spec url "") as [|Hnonempty]; simpl; [discriminate|].
    destruct (parse_url host url) as [href|e] eqn:Hparse; simpl; [|discriminate].
    destruct (on_rate _ w) as [wa [[]|e]] eqn:Hrate; simpl; [|discriminate].
    destruct (stub_fetch (check_call_fault host) _ _ _ _ wa)
      as [wb [checked|e]] eqn:Hcheck; simpl; [|discriminate].
    destruct (Cache.status checked =? 200); simpl.
    { destruct (response_json checked) as [[]|e]; simpl; discriminate. }
    destruct (analyzePolicy _ _ _ _ _ _ _) as [computed|e]; simpl; [|discriminate].
    destruct (store_call_fault host) as [e|] eqn:Hfault; [discriminate|].
    assert (Cache.initialized (policyCache wb) = true) as Hready.
    { unfold stub_fetch, on_cache in Hcheck.
      destruct (check_call_fault host); [discriminate|].
      destruct (Cache.fetch _ _ _ _ _ (policyCache wa)) as [pc r] eqn:Hfetch.
      injection Hcheck as <- ->. by apply AnalyzeFacts.fetch_initializes in Hfetch. }
    change ("/api/analyze" +:+ "/store") with "/api/analyze/store".
    destruct (store_call_records wb url computed
                (or_default (ANALYSIS_CACHE_TTL_MINUTES env) 30)
                (at_store (times host)) (at_store' (times host))
                (store_faults host) Hready Hnonempty)
      as (wc & stored & -> & _ & Hready' & Hentry).
    intros [= <- <- <-]. exists props, url. eauto 10.
Qed.

(** Two identical requests within the time to live: when the first is
    answered with a computed result, the second, if it is admitted and its
    lookup reaches the cache before the entry expires, is answered from the
    cache with the same result, marked [cached], without a new analysis. *)
Theorem repeated_request_is_served_from_cache (host host' : Host) (env : Env)
    (request : HttpRequest) (w w1 w2 : World) (result : PolicyResult)
    (stamp : option Z) :
  pathname request = "/api/analyze" → search request = "" →
  handleAnalyze host env request w =
    (w1, Returns {| status := 200; body := ResultJson (Some result) false stamp |}) →
  parse_url host' = parse_url host →
  on_rate (checkRateLimit (client_of request) env (at_admission (times host'))
             (lucky host')) w1 = (w2, Returns ()) →
  check_call_fault host' = None →
  at_check (times host') <
    at_store (times host)
    + or_default (ANALYSIS_CACHE_TTL_MINUTES env) 30 * 60 * 1000 →
  handleAnalyze host' env request w1 =
    (w2, Returns {| status := 200;
                    body := ResultJson (Some result) true
                              (Some (at_store' (times host))) |}).
Proof.
  intros Hpath Hsearch Hfirst Hparser Hrate Hcall Hlive.
  destruct (computed_answer_inversion host env request w w1 result stamp
              Hpath Hsearch Hfirst)
    as (props & url & Hmethod & Hjson & Hurl & Hnonempty & [href Hparse]
        & Hready & Hentry).
  assert (policyCache w2 = policyCache w1) as Hsame.
  { unfold on_rate in Hrate. destruct (checkRateLimit _ _ _ _ _) as [store r].
    by injection Hrate as <- _. }
  unfold handleAnalyze, try_catch_st, sub_path.
  rewrite Hpath, Hsearch, Hmethod, Hjson. simpl.
  unfold mbind, stateful_bind, lift, mret, stateful_ret. simpl.
  rewrite Hurl. simpl.
  rewrite (CacheFacts.eqb_empty_false url Hnonempty), Hparser, Hparse. simpl.
  rewrite Hrate. simpl. rewrite Hcall.
  change ("/api/analyze" +:+ "/check") with "/api/analyze/check".
  rewrite (check_call_hits w2 url _ _ _ ltac:(by rewrite Hsame) Hnonempty
             ltac:(by rewrite Hsame) Hlive).
  reflexivity.
Qed.

(** The first request on a fresh worker computes its answer. *)
Lemma first_request_is_computed :
  ∃ result,
    handleAnalyze (AnalyzeFacts.example_host None Cache.no_faults)
      AnalyzeFacts.default_env AnalyzeFacts.example_request
      AnalyzeFacts.fresh_world =
      ((handleAnalyze (AnalyzeFacts.example_host None Cache.no_faults)
          AnalyzeFacts.default_env AnalyzeFacts.example_request
          AnalyzeFacts.fresh_world).1,
       Returns {| status := 200;
                  body := ResultJson (Some result) false (Some 1601) |}).
Proof. eexists. vm_compute. reflexivity. Qed.

Lemma second_request_is_admitted :
  let host := AnalyzeFacts.example_host None Cache.no_faults in
  let w1 := (handleAnalyze host AnalyzeFacts.default_env
               AnalyzeFacts.example_request AnalyzeFacts.fresh_world).1 in
  on_rate (checkRateLimit (client_of AnalyzeFacts.example_request)
             AnalyzeFacts.default_env (at_admission (times host)) (lucky host))
    w1 =
  ((on_rate (checkRateLimit (client_of AnalyzeFacts.example_request)
               AnalyzeFacts.default_env (at_admission (times host)) (lucky host))
      w1).1, Returns ()).
Proof. vm_compute. reflexivity. Qed.

Lemma repeated_request_is_served_from_cache_witness :
  let host := AnalyzeFacts.example_host None Cache.no_faults in
  let w1 := (handleAnalyze host AnalyzeFacts.default_env
               AnalyzeFacts.example_request AnalyzeFacts.fresh_world).1 in
  ∃ result w2,
    handleAnalyze host AnalyzeFacts.default_env AnalyzeFacts.example_request w1 =
      (w2, Returns {| status := 200;
                      body := ResultJson (Some result) true (Some 1600) |}).
Proof.
  intros host w1. destruct first_request_is_computed as [result Hfirst].
  exists result. eexists.
  apply (repeated_request_is_served_from_cache host host AnalyzeFacts.default_env
           AnalyzeFacts.example_request AnalyzeFacts.fresh_world w1 _ result
           (Some 1601)).
  - reflexivity.
  - reflexivity.
  - exact Hfirst.
  - reflexivity.
  - exact second_request_is_admitted.
  - reflexivity.
  - reflexivity.
Defined.

(** Nothing was written to the storage and no alarm was set; an object
    that was initialized is exactly as before. *)
Definition untouched (pc pc' : Cache.PolicyCache PolicyResult) : Prop :=
  Cache.stored pc' = Cache.stored pc ∧
  Cache.alarmAt pc' = Cache.alarmAt pc ∧
  (Cache.initialized pc = true → pc' = pc).

Lemma untouched_refl pc : untouched pc pc.
Proof. by repeat split. Qed.

Lemma untouched_trans pc1 pc2 pc3 :
  untouched pc1 pc2 → untouched pc2 pc3 → untouched pc1 pc3.
Proof.
  intros (Hs & Ha & Hi) (Hs' & Ha' & Hi'). repeat split; [congruence..|].
  intros Hready. specialize (Hi Hready). subst pc2. by apply Hi'.
Qed.

Lemma initialize_untouched (faults : Cache.StorageFaults)
    (st st' : Cache.PolicyCache PolicyResult) (r : outcome ()) :
  Cache.initialize faults st = (st', r) → untouched st st'.
Proof.
  unfold Cache.initialize, Cache.storage_get, Cache.set_cache, read, modify,
    mbind, stateful_bind, mret, stateful_ret.
  destruct (Cache.initialized st) eqn:Hready; simpl.
  - intros [= <- _]. apply untouched_refl.
  - destruct (Cache.get_fault faults); [intros [= <- _]; apply untouched_refl|].
    destruct (Cache.stored st); simpl; intros [= <- _];
      (split; [done|split; [done|]]); simpl; intros ?; congruence.
Qed.

Lemma on_rate_cache {A} (m : stateful (gmap string (list Z)) A) (w w' : World)
    (r : outcome A) :
  on_rate m w = (w', r) → policyCache w' = policyCache w.
Proof. unfold on_rate. destruct (m _). by intros [= <- _]. Qed.

(** A call whose path is that of the analyze request itself is answered 405
    by the durable object and leaves it untouched. *)
Lemma unrouted_call_untouched (call_fault : option JSError) (url : string)
    (result : option PolicyResult) (ttl : option Z) (now now' : Z)
    (faults : Cache.StorageFaults) (w w' : World)
    (r : outcome (Cache.Response PolicyResult)) :
  stub_fetch call_fault (cache_request "/api/analyze" url result ttl)
    now now' faults w = (w', r) →
  untouched (policyCache w) (policyCache w') ∧
  ∀ response, r = Returns response → Cache.status response = 405.
Proof.
  unfold stub_fetch, on_cache, lift.
  destruct call_fault; [intros [= <- <-]; split; [apply untouched_refl|done]|].
  rewrite ResultsFacts.fetch_unrouted by reflexivity.
  destruct (Cache.initialize faults (policyCache w)) as [st1 [[]|e]] eqn:Hinit;
    apply initialize_untouched in Hinit; intros [= <- <-]; simpl;
    (split; [done|]); [by intros ? [= <-] | done].
Qed.

(** An analyze request that carries a query string goes around the cache:
    the suffixes [/check] and [/store] end up in the query, the durable
    object answers 405 to both calls, so the request is never answered from
    the cache and its result is not stored. *)
Theorem query_string_bypasses_cache (host : Host) (env : Env)
    (request : HttpRequest) (w w' : World) (r : outcome HttpResponse) :
  pathname request = "/api/analyze" → search request ≠ "" →
  handleAnalyze host env request w = (w', r) →
  untouched (policyCache w) (policyCache w') ∧
  ∀ response result stamp,
    r = Returns response → body response ≠ ResultJson result true stamp.
Proof.
  intros Hpath Hsearch%CacheFacts.eqb_empty_false.
  unfold handleAnalyze, try_catch_st, sub_path. rewrite Hpath, Hsearch.
  assert (∀ w0 (response : HttpResponse),
            (∀ result stamp, body response ≠ ResultJson result true stamp) →
            policyCache w0 = policyCache w ∨ untouched (policyCache w) (policyCache w0) →
            (w0, Returns response) = (w', r) →
            untouched (policyCache w) (policyCache w') ∧
            ∀ response result stamp,
              r = Returns response → body response ≠ ResultJson result true stamp)
    as Hdone.
  { intros w0 response Hbody Hcache [= <- <-]. split.
    - destruct Hcache as [->|?]; [apply untouched_refl|done].
    - intros ? ? ? [= <-]. apply Hbody. }
  destruct (String.eqb (method request) "POST"); simpl;
    [|apply Hdone; [done|by left]].
  destruct (json request) as [body|e]; simpl; [|apply Hdone; [done|by left]].
  unfold mbind, stateful_bind, lift, mret, stateful_ret. simpl.
  destruct (get_field body "url") as [url|e]; simpl;
    [|apply Hdone; [done|by left]].
  destruct (get_field body "type") as [type|e]; simpl;
    [|apply Hdone; [done|by left]].
  destruct (negb (truthy url)); simpl; [apply Hdone; [done|by left]|].
  destruct (validatePolicyUrl (parse_url host) url) as [href|e]; simpl;
    [|apply Hdone; [done|by left]].
  destruct (on_rate _ w) as [wa [[]|e]] eqn:Hrate; simpl;
    apply on_rate_cache in Hrate; [|apply Hdone; [done|by left]].
  destruct (stub_fetch (check_call_fault host) _ _ _ _ wa)
    as [wb [checked|e]] eqn:Hcheck; simpl;
    apply unrouted_call_untouched in Hcheck as [Hwb Hstatus];
    rewrite Hrate in Hwb; [|apply Hdone; [done|by right]].
  rewrite (Hstatus checked eq_refl). simpl.
  destruct (analyzePolicy _ _ _ _ _ _ _) as [computed|e]; simpl;
    [|apply Hdone; [done|by right]].
  destruct (stub_fetch (store_call_fault host) _ _ _ _ wb)
    as [wc [stored|e]] eqn:Hstore; simpl;
    apply unrouted_call_untouched in Hstore as [Hwc _];
    apply Hdone; try done; right; by eapply untouched_trans.
Qed.

Definition tagged_request : HttpRequest :=
  {| method := "POST"; pathname := "/api/analyze"; search := "?source=popup";
     clientIP := Some "203.0.113.7";
     json := Returns (JObj [("url", JStr "https://example.com/privacy")]) |}.

Lemma query_string_bypasses_cache_witness :
  untouched (policyCache AnalyzeFacts.fresh_world)
    (policyCache
       (handleAnalyze (AnalyzeFacts.example_host None Cache.no_faults)
          AnalyzeFacts.default_env tagged_request AnalyzeFacts.fresh_world).1).
Proof.
  destruct (query_string_bypasses_cache
              (AnalyzeFacts.example_host None Cache.no_faults)
              AnalyzeFacts.default_env tagged_request AnalyzeFacts.fresh_world
              (handleAnalyze (AnalyzeFacts.example_host None Cache.no_faults)
                 AnalyzeFacts.default_env tagged_request
                 AnalyzeFacts.fresh_world).1
              (handleAnalyze (AnalyzeFacts.example_host None Cache.no_faults)
                 AnalyzeFacts.default_env tagged_request
                 AnalyzeFacts.fresh_world).2)
    as [Huntouched _].
  - reflexivity.
  - discriminate.
  - apply surjective_pairing.
  - exact Huntouched.
Defined.

End AnalyzeMore.

(** ** More on the analysis pipeline *)

Module AnalyzerMore.

Import ScorerFacts AnalyzerFacts.
Local Open Scope list_scope.

(** *** Chunks *)

Lemma push_current_trimmed (st : ChunkerState) :
  Forall (λ chunk, trim chunk = chunk) (chunks st) →
  Forall (λ chunk, trim chunk = chunk) (push_current st).
Proof.
  intros Hchunks. unfold push_current. destruct (nonempty _); [|done].
  apply Forall_app; split; [done|].
  apply Forall_singleton, ValidationFacts.trim_idempotent.
Qed.

Lemma foldl_chunk_step_trimmed (maxChunkSize : nat) (sentences : list string) :
  ∀ st,
    Forall (λ chunk, trim chunk = chunk) (chunks st) →
    Forall (λ chunk, trim chunk = chunk)
      (chunks (foldl (chunk_step maxChunkSize) st sentences)).
Proof.
  induction sentences as [|sentence rest IH]; intros st Hchunks; simpl; [done|].
  apply IH. unfold chunk_step.
  case_bool_decide; simpl; [by apply push_current_trimmed | done].
Qed.

(** Every chunk handed to the inference service is longer than 50
    characters and has no white space at either end, whatever the text and
    the size asked for. *)
Theorem chunks_are_trimmed_and_longer_than_50 (content : string)
    (maxChunkSize : nat) (chunk : string) :
  chunk ∈ chunkContent content maxChunkSize →
  (50 < String.length chunk)%nat ∧ trim chunk = chunk.
Proof.
  unfold chunkContent. intros [Hlong Hin]%list_elem_of_filter.
  split; [done|].
  assert (Forall (λ chunk, trim chunk = chunk)
            (push_current
               (foldl (chunk_step maxChunkSize)
                  {| chunks := []; currentChunk := "" |}
                  (filter (λ s, 10 < String.length (trim s))%nat
                     (split_sentences content))))) as Hall.
  { apply push_current_trimmed, foldl_chunk_step_trimmed. simpl. done. }
  rewrite Forall_forall in Hall. by apply Hall.
Qed.

Lemma chunks_are_trimmed_and_longer_than_50_witness :
  (50 < String.length ChunkerFacts.one_sentence_page)%nat ∧
  trim ChunkerFacts.one_sentence_page = ChunkerFacts.one_sentence_page.
Proof.
  apply (chunks_are_trimmed_and_longer_than_50 ChunkerFacts.one_sentence_page
           defaultMaxChunkSize).
  rewrite ChunkerFacts.one_sentence_page_chunks. left.
Defined.

(** *** Aggregation *)

Ltac finish_iteration :=
  eexists; split; [reflexivity|]; simpl; rewrite ?length_app; simpl; lia.

(** One iteration never throws, and adds at most one section. *)
Lemma chunk_iteration_bounded (reply : AIReply) (type : JValue) (a : Analysis) :
  ∃ a', chunk_iteration reply type a = (a', Returns ()) ∧
        (length (sections a') ≤ S (length (sections a)))%nat.
Proof.
  unfold chunk_iteration.
  unfold try_catch_st, mbind at 1, stateful_bind at 1, lift at 1.
  destruct (analyzeChunk reply type) as [finding|e]; [|finish_iteration].
  run_analysis.
  destruct (get_field finding "keyPoints") as [points|e]; simpl;
    [|finish_iteration].
  destruct (truthy points); simpl.
  - destruct (spread points) as [items|e]; simpl; [|finish_iteration].
    destruct (get_field finding "redFlags") as [flags|e]; simpl;
      [|finish_iteration].
    destruct (truthy flags); simpl.
    + destruct (spread flags) as [items'|e]; simpl; [|finish_iteration].
      destruct (get_field finding "compliance") as [tags|e]; simpl;
        [|finish_iteration].
      destruct (truthy tags); simpl; finish_iteration.
    + destruct (get_field finding "compliance") as [tags|e]; simpl;
        [|finish_iteration].
      destruct (truthy tags); simpl; finish_iteration.
  - destruct (get_field finding "redFlags") as [flags|e]; simpl;
      [|finish_iteration].
    destruct (truthy flags); simpl.
    + destruct (spread flags) as [items'|e]; simpl; [|finish_iteration].
      destruct (get_field finding "compliance") as [tags|e]; simpl;
        [|finish_iteration].
      destruct (truthy tags); simpl; finish_iteration.
    + destruct (get_field finding "compliance") as [tags|e]; simpl;
        [|finish_iteration].
      destruct (truthy tags); simpl; finish_iteration.
Qed.

Lemma for_each_chunk_bounded (ai : nat → AIReply) (type : JValue)
    (sampleChunks : list string) :
  ∀ (i : nat) (a : Analysis),
    ∃ a', for_each_chunk ai type i sampleChunks a = (a', Returns ()) ∧
          (length (sections a') ≤ length (sections a) + length sampleChunks)%nat.
Proof.
  induction sampleChunks as [|chunk rest IH]; intros i a; simpl.
  - exists a. split; [done|lia].
  - destruct (chunk_iteration_bounded (ai i) type a) as (a1 & Hstep & Hone).
    destruct (IH (S i) a1) as (a' & Hrest & Hfinal).
    exists a'. unfold mbind, stateful_bind. rewrite Hstep, Hrest.
    split; [done|lia].
Qed.

(** The summary step never throws and only writes [executiveSummary] and
    [recommendations]. *)
Lemma summarize_keeps (reply : AIReply) (type : JValue) (a : Analysis) :
  ∃ a', summarize reply type a = (a', Returns ()) ∧
        sections a' = sections a ∧ redFlags a' = redFlags a ∧
        compliance a' = compliance a ∧ keyPoints a' = keyPoints a ∧
        (summary_ok reply = true → sliceable (recommendations a') = true).
Proof.
  run_analysis. unfold generateSummaryAnalysis, interpolate.
  destruct (existsb _ _); simpl; [by eauto 10|].
  destruct reply as [e| |[| |b|z|s|items|props]]; simpl; eauto 10.
Qed.

(** What [limit_arrays] leaves when it returns. *)
Lemma limit_arrays_returns (a a' : Analysis) :
  limit_arrays a = (a', Returns ()) →
  keyPoints a' = take 10 (keyPoints a) ∧
  redFlags a' = take 5 (redFlags a) ∧
  compliance a' = compliance a ∧
  sections a' = sections a ∧
  slice_to 5 (recommendations a) = Returns (recommendations a').
Proof.
  run_analysis. destruct (recommendations a); simpl; try discriminate;
    by intros [= <-].
Qed.

(** The analysis that [performAIAnalysis] returns holds at most 10 key
    points, 5 red flags, 3 sections, and 5 recommendations (or, when the
    summary reply carried a string there, its first 5 characters). *)
Theorem analysis_lists_are_capped (ai : nat → AIReply) (chunks : list string)
    (type : JValue) (a : Analysis) :
  performAIAnalysis ai chunks type = Returns a →
  (length (keyPoints a) ≤ 10)%nat ∧
  (length (redFlags a) ≤ 5)%nat ∧
  (length (sections a) ≤ 3)%nat ∧
  match recommendations a with
  | JArr items => (length items ≤ 5)%nat
  | JStr s => (String.length s ≤ 5)%nat
  | _ => False
  end.
Proof.
  unfold performAIAnalysis.
  destruct (for_each_chunk_bounded ai type (take 3 chunks) 0 initialAnalysis)
    as (a1 & Hloop & Hsections1).
  destruct (summarize_keeps (ai (length (take 3 chunks))) type a1)
    as (a2 & Hsum & Hsections2 & _).
  unfold mbind, stateful_bind. rewrite Hloop, Hsum.
  destruct (limit_arrays a2) as [a3 [[]|e]] eqn:Hlimit; [|discriminate].
  intros [= <-].
  apply limit_arrays_returns in Hlimit
    as (Hpoints & Hflags & _ & Hsections3 & Hadvice).
  rewrite Hpoints, Hflags, Hsections3, Hsections2, !length_take.
  rewrite length_take in Hsections1.
  change (sections initialAnalysis) with (@nil JValue) in Hsections1.
  pose proof (Nat.le_min_l 3 (length chunks)) as Hsampled.
  change (length (@nil JValue)) with 0%nat in Hsections1.
  split; [lia|]. split; [lia|]. split; [lia|].
  destruct (recommendations a2); simpl in Hadvice; try discriminate;
    injection Hadvice as <-.
  - apply ValidationFacts.length_substring.
  - rewrite length_take. lia.
Qed.

Lemma analysis_lists_are_capped_witness :
  (length (keyPoints flagged_analysis) ≤ 10)%nat ∧
  (length (redFlags flagged_analysis) ≤ 5)%nat ∧
  (length (sections flagged_analysis) ≤ 3)%nat.
Proof.
  destruct (analysis_lists_are_capped flagged_replies ["the only chunk"]
              (JStr "privacy") flagged_analysis eq_refl)
    as (Hpoints & Hflags & Hsections & _).
  by repeat split.
Defined.

(** *** When the inference service is down *)

(** The analysis holds nothing but placeholders. *)
Definition only_placeholders (a : Analysis) : Prop :=
  redFlags a = [] ∧
  Forall (λ section, section = placeholderFinding) (sections a) ∧
  (compliance a = [] ∨
   compliance a = [("gdpr", JStr "unknown"); ("ccpa", JStr "unknown")]).

Lemma chunk_iteration_placeholder (reply : AIReply) (type : JValue)
    (a : Analysis) :
  to_primitive_throws type = false →
  degraded reply = true →
  only_placeholders a →
  ∃ a', chunk_iteration reply type a = (a', Returns ()) ∧ only_placeholders a'.
Proof.
  intros Htype Hdegraded (Hflags & Hsections & Htags). unfold chunk_iteration.
  unfold try_catch_st, mbind at 1, stateful_bind at 1, lift at 1.
  rewrite analyzeChunk_returns, finding_of_degraded by done.
  eexists. split; [reflexivity|]. simpl.
  split; [by rewrite Hflags|]. split.
  - apply Forall_app; split; [done|]. by apply Forall_singleton.
  - right. by destruct Htags as [->| ->].
Qed.

Lemma for_each_chunk_placeholder (ai : nat → AIReply) (type : JValue)
    (sampleChunks : list string) :
  to_primitive_throws type = false →
  (∀ i, degraded (ai i) = true) →
  ∀ (i : nat) (a : Analysis),
    only_placeholders a →
    ∃ a', for_each_chunk ai type i sampleChunks a = (a', Returns ()) ∧
          only_placeholders a'.
Proof.
  intros Htype Hdown.
  induction sampleChunks as [|chunk rest IH]; intros i a Hinv; simpl.
  - by exists a.
  - destruct (chunk_iteration_placeholder (ai i) type a Htype (Hdown i) Hinv)
      as (a1 & Hstep & Hinv1).
    destruct (IH (S i) a1 Hinv1) as (a' & Hrest & Hfinal).
    exists a'. unfold mbind, stateful_bind. by rewrite Hstep, Hrest.
Qed.

Lemma placeholders_list_no_rights gt0 (sections : list JValue) :
  Forall (λ section, section = placeholderFinding) sections →
  some_of (section_has_rights gt0) sections = Returns false.
Proof. induction 1 as [|section rest -> _ IH]; simpl; [done|]. exact IH. Qed.

(** With the inference service down for every call, [performAIAnalysis]
    still returns, without red flags, and the scorer rates the result
    yellow overall: green for regulatory and transparency, yellow for user
    rights.  This holds for any number of chunks, none included. *)
Theorem analysis_without_inference_is_rated_yellow (gt0 : JValue → bool)
    (ai : nat → AIReply) (chunks : list string) (type : JValue) :
  to_primitive_throws type = false →
  (∀ i, degraded (ai i) = true) →
  ∃ a,
    performAIAnalysis ai chunks type = Returns a ∧
    redFlags a = [] ∧
    calculateRiskScores gt0 a =
      Returns {| overall := yellow; regulatory := green;
                 transparency := green; userRights := yellow |}.
Proof.
  intros Htype Hdown. unfold performAIAnalysis.
  destruct (for_each_chunk_placeholder ai type (take 3 chunks) Htype Hdown 0
              initialAnalysis) as (a1 & Hloop & Hinv1).
  { split; [done|]. split; [constructor | by left]. }
  destruct (summarize_keeps (ai (length (take 3 chunks))) type a1)
    as (a2 & Hsum & Hsections2 & Hflags2 & Htags2 & _ & Hslice).
  destruct (limit_arrays_sections a2) as (a3 & Hlimit & _).
  { apply Hslice. by destruct (ai _) eqn:Hreply; pose proof (Hdown (length (take 3 chunks))) as Hd; rewrite Hreply in Hd. }
  exists a3. unfold mbind, stateful_bind. rewrite Hloop, Hsum, Hlimit.
  split; [done|].
  apply limit_arrays_returns in Hlimit
    as (_ & Hflags3 & Htags3 & Hsections3 & _).
  destruct Hinv1 as (Hflags1 & Hsections1 & Htags1).
  assert (redFlags a3 = []) as Hnone
    by (by rewrite Hflags3, Hflags2, Hflags1).
  split; [done|]. unfold calculateRiskScores.
  rewrite Hnone, Hsections3, Hsections2, Htags3, Htags2,
    placeholders_list_no_rights by done.
  by destruct Htags1 as [->| ->].
Qed.

Lemma analysis_without_inference_is_rated_yellow_witness :
  ∃ a,
    performAIAnalysis (λ _, Unparsable) [ChunkerFacts.one_sentence_page]
      (JStr "privacy") = Returns a ∧
    redFlags a = [] ∧
    calculateRiskScores (λ _, false) a =
      Returns {| overall := yellow; regulatory := green;
                 transparency := green; userRights := yellow |}.
Proof.
  apply (analysis_without_inference_is_rated_yellow (λ _, false)
           (λ _, Unparsable) [ChunkerFacts.one_sentence_page] (JStr "privacy")).
  - reflexivity.
  - intros i. reflexivity.
Defined.

(** *** The green rating *)

(** The assessment is green overall exactly when the analysis has no red
    flag, neither the GDPR nor the CCPA tag reads "non-compliant" or
    "partially", and some section lists user rights. *)
Theorem green_rating_characterised (gt0 : JValue → bool) (a : Analysis)
    (ra : RiskAssessment) :
  calculateRiskScores gt0 a = Returns ra →
  overall ra = green ↔
  redFlags a = [] ∧
  is_string (obj_get (compliance a) "gdpr") "non-compliant" = false ∧
  is_string (obj_get (compliance a) "ccpa") "non-compliant" = false ∧
  is_string (obj_get (compliance a) "gdpr") "partially" = false ∧
  is_string (obj_get (compliance a) "ccpa") "partially" = false ∧
  some_of (section_has_rights gt0) (sections a) = Returns true.
Proof.
  unfold calculateRiskScores.
  destruct (redFlags a) as [|flag flags]; simpl bool_decide;
    destruct (is_string (obj_get (compliance a) "gdpr") "non-compliant"),
      (is_string (obj_get (compliance a) "ccpa") "non-compliant"),
      (is_string (obj_get (compliance a) "gdpr") "partially"),
      (is_string (obj_get (compliance a) "ccpa") "partially"),
      (some_of _ _) as [[]|e]; simpl; try discriminate;
    intros [= <-]; simpl; (split; [try discriminate | intros (?&?&?&?&?&?); try discriminate]); done.
Qed.

Lemma green_rating_characterised_witness :
  yellow = green ↔
  redFlags flagged_analysis = [] ∧
  is_string (obj_get (compliance flagged_analysis) "gdpr") "non-compliant" = false ∧
  is_string (obj_get (compliance flagged_analysis) "ccpa") "non-compliant" = false ∧
  is_string (obj_get (compliance flagged_analysis) "gdpr") "partially" = false ∧
  is_string (obj_get (compliance flagged_analysis) "ccpa") "partially" = false ∧
  some_of (section_has_rights (λ _, false)) (sections flagged_analysis) =
    Returns true.
Proof.
  exact (green_rating_characterised (λ _, false) flagged_analysis
           {| overall := yellow; regulatory := yellow;
              transparency := yellow; userRights := green |} eq_refl).
Defined.

End AnalyzerMore.

(** ** The worker: request screening and routing *)

Module Worker.

Import Validation.

(** The headers that the worker reads, as [request.headers.get] returns
    them: [None] is [null]. *)
Record Headers := {
  origin : option string;
  userAgent : option string;
  extensionVersion : option string;
  contentType : option string;
  contentLength : option string
}.

(** [\d] *)
Definition is_digit (c : ascii) : bool := digit_between 0 9 c.

(** What is left after the longest run of digits at the start. *)
Fixpoint skip_digits (s : string) : string :=
  match s with
  | EmptyString => EmptyString
  | String c rest => if is_digit c then skip_digits rest else s
  end.

(** [\d+] at the start of [s]: the rest after it.  The pattern continues
    with a dot or the end of input, which no digit matches, so the longest
    run is the only candidate. *)
Definition take_number (s : string) : option string :=
  match s with
  | EmptyString => None
  | String c rest => if is_digit c then Some (skip_digits rest) else None
  end.

(** [\.] at the start of [s] *)
Definition take_dot (s : string) : option string :=
  match s with
  | EmptyString => None
  | String c rest => if Ascii.eqb c "." then Some rest else None
  end.

(** [/^\d+\.\d+\.\d+$/.test(version)] *)
Definition versionPattern_test (version : string) : bool :=
  let matched : option string :=
    rest ← take_number version;
    rest ← take_dot rest;
    rest ← take_number rest;
    rest ← take_dot rest;
    take_number rest in
  match matched with
  | Some rest => String.eqb rest ""
  | None => false
  end.

Record ExtensionValidation := {
  valid : bool;
  error : option string
}.

(** The check of the [User-Agent] only logs. *)
Definition validateExtensionRequest (headers : Headers) : ExtensionValidation :=
  if match origin headers with
     | Some origin => nonempty origin && negb (String.prefix "chrome-extension://" origin)
     | None => false
     end
  then {| valid := false; error := Some "Invalid origin" |}
  else
    match extensionVersion headers with
    | None => {| valid := false; error := Some "Extension authentication required" |}
    | Some extensionVersion =>
        if negb (nonempty extensionVersion)
        then {| valid := false; error := Some "Extension authentication required" |}
        else if negb (versionPattern_test extensionVersion)
        then {| valid := false; error := Some "Invalid extension version" |}
        else {| valid := true; error := None |}
    end.

Record WorkerRequest := {
  method : string;
  pathname : string;
  headers : Headers
}.

Inductive Handler := handleHealth | handleAnalyze | handleDetect | handleResults.

(** What [fetch] does with a request: the preflight answer, an error
    answer of its own, or the answer of the handler it returns. *)
Inductive Dispatch :=
  | Preflight
  | Refused (status : Z) (error : string)
  | Delegated (handler : Handler).

Section WithHost.

(** [parseInt]; [None] is [NaN], which compares greater than nothing. *)
Variable parseInt : string → option Z.

(** The statements of [fetch] up to the handler; nothing in them throws
    for a request the runtime delivers, and the CORS headers are left out. *)
Definition fetch (request : WorkerRequest) : Dispatch :=
  if String.eqb (method request) "OPTIONS" then Preflight
  else if negb (String.eqb (method request) "GET" || String.eqb (method request) "POST")
  then Refused 405 "Method not allowed"
  else if String.eqb (pathname request) "/api/health" then Delegated handleHealth
  else if String.eqb (method request) "POST"
          && negb match contentType (headers request) with
                  | Some contentType =>
                      nonempty contentType
                      && string_includes contentType "application/json"
                  | None => false
                  end
  then Refused 400 "Content-Type must be application/json"
  else if String.eqb (method request) "POST"
          && match parseInt match contentLength (headers request) with
                            | Some text => if nonempty text then text else "0"
                            | None => "0"
                            end with
             | Some contentLength => 1024 * 10 <? contentLength
             | None => false
             end
  then Refused 413 "Request too large"
  else
    let extensionValidation := validateExtensionRequest (headers request) in
    if negb (valid extensionValidation)
    then Refused 403 (default "" (error extensionValidation))
    else if String.eqb (pathname request) "/api/analyze" then Delegated handleAnalyze
    else if String.eqb (pathname request) "/api/detect" then Delegated handleDetect
    else if String.eqb (pathname request) "/api/results" then Delegated handleResults
    else Refused 404 "Endpoint not found".

End WithHost.

End Worker.

Module WorkerFacts.

Import Validation Worker.

(** Digits only. *)
Fixpoint digits_only (s : string) : bool :=
  match s with
  | EmptyString => true
  | String c rest => is_digit c && digits_only rest
  end.

(** A non-empty run of digits. *)
Definition numeral (s : string) : bool := nonempty s && digits_only s.

(** The text does not begin with a digit. *)
Definition no_digit_ahead (s : string) : bool :=
  match s with
  | EmptyString => true
  | String c _ => negb (is_digit c)
  end.

Lemma skip_digits_app (a r : string) :
  digits_only a = true → no_digit_ahead r = true → skip_digits (a ++ r) = r.
Proof.
  intros Ha Hr. induction a as [|c a IH]; simpl in *.
  - destruct r as [|c r]; simpl in *; [done|].
    by destruct (is_digit c).
  - apply andb_prop in Ha as [-> Ha]. by apply IH.
Qed.

Lemma skip_digits_split (s : string) :
  ∃ a, digits_only a = true ∧ s = a ++ skip_digits s ∧
       no_digit_ahead (skip_digits s) = true.
Proof.
  induction s as [|c s (a & Ha & Hs & Hr)]; simpl.
  - by exists "".
  - destruct (is_digit c) eqn:Hc.
    + exists (String c a). simpl. rewrite Hc, Ha. split; [done|]. split; [|done].
      change (String c s = String c (a ++ skip_digits s)). congruence.
    + exists "". simpl. by rewrite Hc.
Qed.

Lemma take_number_spec (s rest : string) :
  take_number s = Some rest ↔
  ∃ a, numeral a = true ∧ s = a ++ rest ∧ no_digit_ahead rest = true.
Proof.
  split.
  - destruct s as [|c s]; simpl; [done|].
    destruct (is_digit c) eqn:Hc; [|done]. intros [= <-].
    destruct (skip_digits_split s) as (a & Ha & Hs & Hr).
    exists (String c a). unfold numeral. simpl. rewrite Hc, Ha.
    split; [done|]. split; [|done].
    change (String c s = String c (a ++ skip_digits s)). congruence.
  - intros (a & Ha & -> & Hr). unfold numeral in Ha.
    destruct a as [|c a]; simpl in *; [done|].
    apply andb_prop in Ha as [-> Ha]. by rewrite skip_digits_app.
Qed.

Lemma append_empty (s : string) : s ++ "" = s.
Proof.
  induction s as [|c s IH]; [done|].
  change (String c (s ++ "") = String c s). by rewrite IH.
Qed.

Lemma take_dot_spec (s rest : string) :
  take_dot s = Some rest ↔ s = "." ++ rest.
Proof.
  change ("." ++ rest) with (String "." rest).
  destruct s as [|c s]; simpl; [done|].
  destruct (Ascii.eqb_spec c "."); [subst|]; split; congruence.
Qed.

Lemma versionPattern_test_steps (version r1 r2 r3 r4 : string) :
  take_number version = Some r1 → take_dot r1 = Some r2 →
  take_number r2 = Some r3 → take_dot r3 = Some r4 →
  take_number r4 = Some "" →
  versionPattern_test version = true.
Proof.
  unfold versionPattern_test. intros -> H2 H3 H4 H5. simpl.
  rewrite H2. simpl. rewrite H3. simpl. rewrite H4. simpl. by rewrite H5.
Qed.

(** The versions that pass the pattern are exactly the texts
    [major.minor.patch] of three non-empty runs of decimal digits. *)
Theorem version_pattern_accepts_three_numerals (version : string) :
  versionPattern_test version = true ↔
  ∃ major minor patch,
    numeral major = true ∧ numeral minor = true ∧ numeral patch = true ∧
    version = major ++ "." ++ minor ++ "." ++ patch.
Proof.
  unfold versionPattern_test. split.
  - destruct (take_number version) as [r1|] eqn:H1; simpl; [|done].
    destruct (take_dot r1) as [r2|] eqn:H2; simpl; [|done].
    destruct (take_number r2) as [r3|] eqn:H3; simpl; [|done].
    destruct (take_dot r3) as [r4|] eqn:H4; simpl; [|done].
    destruct (take_number r4) as [r5|] eqn:H5; simpl; [|done].
    intros ->%String.eqb_eq.
    apply take_number_spec in H1 as (major & Hmajor & -> & _).
    apply take_dot_spec in H2 as ->.
    apply take_number_spec in H3 as (minor & Hminor & -> & _).
    apply take_dot_spec in H4 as ->.
    apply take_number_spec in H5 as (patch & Hpatch & -> & _).
    exists major, minor, patch. repeat (split; [done|]).
    by rewrite append_empty.
  - intros (major & minor & patch & Hmajor & Hminor & Hpatch & ->).
    apply (versionPattern_test_steps _ ("." ++ minor ++ "." ++ patch)
             (minor ++ "." ++ patch) ("." ++ patch) patch).
    + apply take_number_spec. by exists major.
    + by apply take_dot_spec.
    + apply take_number_spec. by exists minor.
    + by apply take_dot_spec.
    + apply take_number_spec. exists patch. by rewrite append_empty.
Qed.

(** The path that the worker routes to a handler. *)
Definition path_of (handler : Handler) : string :=
  match handler with
  | handleHealth => "/api/health"
  | handleAnalyze => "/api/analyze"
  | handleDetect => "/api/detect"
  | handleResults => "/api/results"
  end.

(** What a request that passes [validateExtensionRequest] carries. *)
Lemma validateExtensionRequest_valid (headers : Headers) :
  valid (validateExtensionRequest headers) = true →
  validateExtensionRequest headers = {| valid := true; error := None |} ∧
  (∃ version, extensionVersion headers = Some version ∧
              versionPattern_test version = true) ∧
  (∀ text, origin headers = Some text → text ≠ "" →
           String.prefix "chrome-extension://" text = true).
Proof.
  unfold validateExtensionRequest.
  destruct (match origin headers with Some _ => _ | None => _ end) eqn:Ho;
    [done|].
  destruct (extensionVersion headers) as [v|]; [|done].
  destruct (nonempty v); simpl; [|done].
  destruct (versionPattern_test v) eqn:Hversion; simpl; [|done].
  intros _. split; [done|]. split; [by eauto|].
  intros text Horigin Htext. rewrite Horigin in Ho. unfold nonempty in Ho.
  destruct (String.eqb_spec text ""); [done|].
  by destruct (String.prefix _ text).
Qed.

(** Whenever the worker hands a request to a handler, the method is GET or
    POST and the path is the handler's; and unless the handler is the
    health check, the request carries a version header that passes the
    pattern, no origin other than an extension's, and, for a POST, a JSON
    content type.  The health check is reached without any of these. *)
Theorem handlers_other_than_health_need_extension_header
    (parseInt : string → option Z) (request : WorkerRequest) (handler : Handler) :
  fetch parseInt request = Delegated handler →
  (method request = "GET" ∨ method request = "POST") ∧
  pathname request = path_of handler ∧
  (handler ≠ handleHealth →
   validateExtensionRequest (headers request) = {| valid := true; error := None |} ∧
   (∃ version, extensionVersion (headers request) = Some version ∧
               versionPattern_test version = true) ∧
   (∀ text, origin (headers request) = Some text → text ≠ "" →
            String.prefix "chrome-extension://" text = true) ∧
   (method request = "POST" →
    ∃ text, contentType (headers request) = Some text ∧
            string_includes text "application/json" = true)).
Proof.
  unfold fetch.
  destruct (String.eqb_spec (method request) "OPTIONS") as [|_]; [done|].
  assert (String.eqb (method request) "GET" || String.eqb (method request) "POST"
          = true → method request = "GET" ∨ method request = "POST") as Hmethod.
  { intros [?%String.eqb_eq|?%String.eqb_eq]%orb_prop; auto. }
  destruct (String.eqb (method request) "GET" || String.eqb (method request) "POST");
    simpl; [|done].
  specialize (Hmethod eq_refl).
  destruct (String.eqb_spec (pathname request) "/api/health") as [Hpath|Hpath].
  { by intros [= <-]. }
  match goal with
  | |- context [if ?test then Refused 400 _ else _] => destruct test eqn:Htype
  end; [done|].
  match goal with
  | |- context [if ?test then Refused 413 _ else _] => destruct test eqn:Hsize
  end; [done|].
  destruct (valid (validateExtensionRequest (headers request))) eqn:Hvalid;
    simpl; [|done].
  apply validateExtensionRequest_valid in Hvalid as (Hpass & Hversion & Horigin).
  assert (method request = "POST" →
          ∃ text, contentType (headers request) = Some text ∧
                  string_includes text "application/json" = true) as Hjson.
  { intros Hpost. rewrite Hpost in Htype. simpl in Htype.
    destruct (contentType (headers request)) as [text|]; [|done].
    exists text. split; [done|].
    apply negb_false_iff in Htype. by apply andb_prop in Htype as [_ ?]. }
  destruct (String.eqb_spec (pathname request) "/api/analyze");
    [|destruct (String.eqb_spec (pathname request) "/api/detect");
      [|destruct (String.eqb_spec (pathname request) "/api/results"); [|done]]];
    by intros [= <-].
Qed.

Definition analyze_call : WorkerRequest :=
  {| method := "POST"; pathname := "/api/analyze";
     headers := {| origin := Some "chrome-extension://abcdefghijklmnop";
                   userAgent := Some "Mozilla/5.0 Chrome/120.0";
                   extensionVersion := Some "1.0.0";
                   contentType := Some "application/json";
                   contentLength := Some "64" |} |}.

Lemma handlers_other_than_health_need_extension_header_witness :
  ∃ version,
    extensionVersion (headers analyze_call) = Some version ∧
    versionPattern_test version = true.
Proof.
  destruct (handlers_other_than_health_need_extension_header (λ _, Some 64)
              analyze_call handleAnalyze eq_refl)
    as (_ & _ & Hchecked).
  destruct (Hchecked ltac:(discriminate)) as (_ & Hversion & _).
  exact Hversion.
Defined.

End WorkerFacts.
